(** * scripts/clean-article-inline-styles.py

    A shallow embedding of the inline-style cleaner: the ordered table
    [REPLACEMENTS] of (regular expression, replacement template) pairs, the
    [re.sub] pass that [clean_html_file] runs for each of them, and the
    command-line driver [main] with its two modes.

    Python [str] values are modelled as lists of characters ([list ascii]);
    the files are read and written as UTF-8, whose multi-byte sequences
    contain none of the ASCII characters the table mentions. *)

From Stdlib Require Import String Ascii List Bool Arith Lia.
From Stdlib Require Import Sorted Permutation.
From Stdlib Require DecimalString.
Import ListNotations.

Local Open Scope string_scope.
Local Open Scope list_scope.
Local Open Scope nat_scope.

(** ** Text *)

Definition text := list ascii.

Definition text_eq_dec : forall a b : text, {a = b} + {a <> b} :=
  list_eq_dec ascii_dec.

Definition text_eqb (a b : text) : bool :=
  if text_eq_dec a b then true else false.

Definition QUOTE : ascii := "034"%char.
Definition LT : ascii := "<"%char.
Definition GT : ascii := ">"%char.

(** The regular expressions, templates and HTML texts of this file write an
    apostrophe where the Python source has a double quote; [py] restores
    the double quotes. The table contains no apostrophe of its own. *)
Definition unquote (c : ascii) : ascii :=
  if Ascii.eqb c "'"%char then QUOTE else c.

Definition py (s : string) : text := map unquote (list_ascii_of_string s).

(** The other string literals of the program, as they are. *)
Definition lit (s : string) : text := list_ascii_of_string s.

(** ** The fragment of Python's [re] syntax that the table uses *)

Module Re.

(** [Lit c] matches the character [c]; [NotStar c] is the greedy [[^c]*];
    [Group c] is the same loop in capturing parentheses. *)
Inductive atom : Type :=
  | Lit (c : ascii)
  | NotStar (c : ascii)
  | Group (c : ascii).

Definition pattern := list atom.

(** Replacement templates: literal characters and group references [\k]. *)
Inductive titem : Type :=
  | TLit (c : ascii)
  | TRef (k : nat).

Definition template := list titem.

Definition is_meta (c : ascii) : bool :=
  existsb (Ascii.eqb c) (list_ascii_of_string ".^$*+?{}[]|()\").

Definition is_alnum (c : ascii) : bool :=
  let n := nat_of_ascii c in
  ((48 <=? n) && (n <=? 57)) || ((65 <=? n) && (n <=? 90)) || ((97 <=? n) && (n <=? 122)).

(** [re.compile] on the table's patterns: [\x], for [x] neither a letter nor
    a digit, is the literal [x],
    [[^c]*], bare or in capturing parentheses, is the wildcard, any other
    character that is not a metacharacter stands for itself. Anything else
    is outside the fragment. *)
Fixpoint parse (s : text) : option pattern :=
  match s with
  | [] => Some []
  | "\"%char :: x :: s' =>
      if is_alnum x then None else option_map (cons (Lit x)) (parse s')
  | "("%char :: "["%char :: "^"%char :: c :: "]"%char :: "*"%char :: ")"%char :: s' =>
      option_map (cons (Group c)) (parse s')
  | "["%char :: "^"%char :: c :: "]"%char :: "*"%char :: s' =>
      option_map (cons (NotStar c)) (parse s')
  | x :: s' =>
      if is_meta x then None else option_map (cons (Lit x)) (parse s')
  end.

Definition digit_of (c : ascii) : option nat :=
  let n := nat_of_ascii c in
  if (49 <=? n) && (n <=? 57) then Some (n - 48) else None.

(** The replacement string of [re.sub]: [\k] with [k] in 1..9 refers to
    group [k]; the table has no other backslash. *)
Fixpoint parse_template (s : text) : option template :=
  match s with
  | [] => Some []
  | "\"%char :: d :: s' =>
      match digit_of d with
      | Some k => option_map (cons (TRef k)) (parse_template s')
      | None => None
      end
  | "\"%char :: [] => None
  | x :: s' => option_map (cons (TLit x)) (parse_template s')
  end.

(** The greedy loop of [[^c]*]: take as many characters other than [c] as
    possible, and give one back at a time while the continuation [k] fails.
    The result carries the characters the loop kept. *)
Fixpoint star {R : Type} (c : ascii) (k : text -> option R) (s : text)
  : option (text * R) :=
  let stop := option_map (pair []) (k s) in
  match s with
  | [] => stop
  | x :: s' =>
      if Ascii.eqb x c then stop
      else match star c k s' with
           | Some (w, r) => Some (x :: w, r)
           | None => stop
           end
  end.

(** [match_here p s] is [pattern.match] at the start of [s]: the captured
    groups and the text after the match. *)
Fixpoint match_here (p : pattern) (s : text) : option (list text * text) :=
  match p with
  | [] => Some ([], s)
  | Lit c :: p' =>
      match s with
      | x :: s' => if Ascii.eqb x c then match_here p' s' else None
      | [] => None
      end
  | NotStar c :: p' => option_map snd (star c (match_here p') s)
  | Group c :: p' =>
      match star c (match_here p') s with
      | Some (w, (caps, rest)) => Some (w :: caps, rest)
      | None => None
      end
  end.

(** [match.expand]: group [k] is the [k]-th capture. *)
Fixpoint expand (r : template) (caps : list text) : text :=
  match r with
  | [] => []
  | TLit c :: r' => c :: expand r' caps
  | TRef k :: r' => nth (k - 1) caps [] ++ expand r' caps
  end.

(** The scanning loop of [re.sub]: at each position try the pattern; on a
    match emit the expanded template and go on after the match; otherwise
    copy one character. An empty match emits the template and copies the
    next character. [fuel] bounds the number of positions visited. *)
Fixpoint sub_from (fuel : nat) (p : pattern) (r : template) (s : text) : text :=
  match fuel with
  | 0 => s
  | S fuel' =>
      let step :=
        match s with
        | [] => []
        | x :: s' => x :: sub_from fuel' p r s'
        end in
      match match_here p s with
      | Some (caps, rest) =>
          if length rest <? length s
          then expand r caps ++ sub_from fuel' p r rest
          else expand r caps ++ step
      | None => step
      end
  end.

Definition sub (p : pattern) (r : template) (s : text) : text :=
  sub_from (S (length s)) p r s.

End Re.

Import Re.

(** ** The rule table *)

Definition rule : Type := pattern * template.

Definition compile (src : string * string) : option rule :=
  match parse (py (fst src)), parse_template (py (snd src)) with
  | Some p, Some r => Some (p, r)
  | _, _ => None
  end.

Fixpoint compile_all (srcs : list (string * string)) : option (list rule) :=
  match srcs with
  | [] => Some []
  | src :: srcs' =>
      match compile src, compile_all srcs' with
      | Some r, Some rs => Some (r :: rs)
      | _, _ => None
      end
  end.

(** The 27 entries of [REPLACEMENTS], in the order of the source. *)
Definition REPLACEMENTS_src : list (string * string) :=
  [ ("<article class='article-content container'>",
     "<article class='article-content'>");
    ("<div class='key-takeaways' style='[^']*'>",
     "<div class='key-takeaways'>");
    ("<h3 style='color: white; margin-bottom: 1rem;'>Key Takeaways</h3>",
     "<h3>Key Takeaways</h3>");
    ("<ul style='list-style: none; padding: 0;'>",
     "<ul>");
    ("<li style='margin-bottom: 0\.75rem;'>",
     "<li>");
    ("<div class='info-box' style='[^']*'>",
     "<div class='info-box'>");
    ("<div style='background: #fef2f2; border-left: 4px solid #ef4444; padding: 1\.5rem; margin: 1\.5rem 0; border-radius: 0 8px 8px 0;'>",
     "<div class='warning-box'>");
    ("<div style='background: #f0fdf4; border-left: 4px solid #22c55e;[^']*'>",
     "<div class='success-box'>");
    ("<table style='[^']*'>",
     "<table>");
    ("<thead style='[^']*'>",
     "<thead>");
    ("<th style='[^']*'>",
     "<th>");
    ("<td style='[^']*'>",
     "<td>");
    ("<tr style='[^']*'>",
     "<tr>");
    ("<div class='cta-box' style='[^']*'>",
     "<div class='cta-box'>");
    ("<h3 style='color: white; font-size: 2rem; margin: 0 0 1rem 0;'>",
     "<h3>");
    ("<p style='font-size: 1\.2rem; margin-bottom: 1\.5rem;'>",
     "<p>");
    ("<a href='([^']*)' class='cta-button' style='[^']*'>",
     "<a href='\1' class='cta-button'>");
    ("<div class='related-posts' style='[^']*'>",
     "<div class='related-posts'>");
    ("<h3 style='font-size: 1\.5rem; margin-bottom: 1\.5rem;'>([^<]*)</h3>",
     "<h3>\1</h3>");
    ("<div style='display: grid; grid-template-columns: repeat\(auto-fit, minmax\(300px, 1fr\)\); gap: 1\.5rem;'>",
     "<div class='related-posts-grid'>");
    ("<div style='border: 1px solid #e2e8f0; border-radius: 8px; padding: 1\.5rem;'>",
     "<div class='related-post-card'>");
    ("<h4 style='margin: 0 0 0\.5rem 0;'><a href='([^']*)' style='color: #0ea5e9;'>([^<]*)</a></h4>",
     "<h4><a href='\1'>\2</a></h4>");
    ("<p style='margin: 0; color: #64748b;'>",
     "<p>");
    ("<div class='step' style='[^']*'>",
     "<div class='step'>");
    ("<span class='step-number' style='[^']*'>",
     "<span class='step-number'>");
    ("<div class='related-grid' style='[^']*'>",
     "<div class='related-grid'>");
    ("<p class='cta-subtext' style='[^']*'>",
     "<p class='cta-subtext'>") ].

Definition REPLACEMENTS : list rule :=
  Eval vm_compute in
    match compile_all REPLACEMENTS_src with
    | Some rs => rs
    | None => []
    end.

(** ** The transformation of [clean_html_file] (lines 158 to 167) *)

(** The [for pattern, replacement in REPLACEMENTS] loop. *)
Definition apply_rules (rules : list rule) (content : text) : text :=
  fold_left (fun cur (pr : rule) => Re.sub (fst pr) (snd pr) cur) rules content.

(** The final text and the value of [content != original]. *)
Definition rewrite (original : text) : text * bool :=
  let content := apply_rules REPLACEMENTS original in
  (content, negb (text_eqb content original)).

(** ** Paths *)

(** A [pathlib] path is the list of its parts; [str(path)] joins them with
    [/] (an absolute path has an empty first part). *)
Definition Path := list text.

Definition path_eq_dec : forall a b : Path, {a = b} + {a <> b} :=
  list_eq_dec text_eq_dec.

Definition SLASH : ascii := "/"%char.

Fixpoint path_str (p : Path) : text :=
  match p with
  | [] => []
  | [part] => part
  | part :: p' => part ++ SLASH :: path_str p'
  end.

(** The parts of a string: the pieces between slashes. *)
Fixpoint split_slash (cur : text) (s : text) : list text :=
  match s with
  | [] => [List.rev cur]
  | x :: s' =>
      if Ascii.eqb x SLASH then List.rev cur :: split_slash [] s'
      else split_slash (x :: cur) s'
  end.

Definition keep_part (part : text) : bool :=
  negb (text_eqb part []) && negb (text_eqb part ["."%char]).

(** [base / s]: a string that starts with a slash replaces [base]; empty
    and [.] parts are dropped. *)
Definition joinpath (base : Path) (s : text) : Path :=
  let parts := filter keep_part (split_slash [] s) in
  match s with
  | x :: _ => if Ascii.eqb x SLASH then [] :: parts else base ++ parts
  | [] => base
  end.

(** [path.relative_to(base)]; [None] stands for the [ValueError]. *)
Fixpoint relative_to (p base : Path) : option Path :=
  match base, p with
  | [], _ => Some p
  | b :: base', x :: p' => if text_eq_dec x b then relative_to p' base' else None
  | _ :: _, [] => None
  end.

(** *** The order of [sorted] on paths *)

(** Python compares sequences lexicographically; paths compare as the lists
    of their parts, and strings character by character. *)
Fixpoint lex {A : Type} (cmp : A -> A -> comparison) (l1 l2 : list A) : comparison :=
  match l1, l2 with
  | [], [] => Eq
  | [], _ :: _ => Lt
  | _ :: _, [] => Gt
  | x :: l1', y :: l2' =>
      match cmp x y with
      | Eq => lex cmp l1' l2'
      | c => c
      end
  end.

Definition path_compare : Path -> Path -> comparison := lex (lex Ascii.compare).

Definition path_le (a b : Path) : bool :=
  match path_compare a b with
  | Gt => false
  | _ => true
  end.

(** [sorted]: a stable sort, here by insertion from the right. *)
Fixpoint insert (x : Path) (l : list Path) : list Path :=
  match l with
  | [] => [x]
  | y :: l' => if path_le x y then x :: y :: l' else y :: insert x l'
  end.

Definition sorted (l : list Path) : list Path := fold_right insert [] l.

(** ** The world: files, the directory listing, and what the program did *)

(** A stored file: what [read_text] gives ([inl e] when it raises the
    exception that prints as [e], for instance on bytes that are not UTF-8),
    and whether [write_text] raises. *)
Record file : Type := {
  read_result : text + text;
  write_error : option text
}.

Definition filesystem := Path -> option file.

(** What the program does to the outside, in order: the calls of
    [read_text] and [write_text] and the lines printed. *)
Inductive event : Type :=
  | EvRead (p : Path)
  | EvWrite (p : Path) (content : text)
  | EvPrint (line : text).

(** [rglob_html d] is what [d.rglob] yields for the HTML files below [d], in
    the order in which the system enumerates the directory. *)
Record world : Type := {
  fs : filesystem;
  rglob_html : Path -> list Path;
  trace : list event
}.

Definition log (e : event) (w : world) : world :=
  {| fs := fs w; rglob_html := rglob_html w; trace := trace w ++ [e] |}.

Definition store (p : Path) (f : file) (w : world) : world :=
  {| fs := fun q => if path_eq_dec q p then Some f else fs w q;
     rglob_html := rglob_html w;
     trace := trace w |}.

(** *** Computations that may raise *)

Inductive outcome (A : Type) : Type :=
  | Val (a : A)
  | Exc (msg : text).

Arguments Val {A} a.
Arguments Exc {A} msg.

Definition IO (A : Type) : Type := world -> outcome A * world.

Definition ret {A} (a : A) : IO A := fun w => (Val a, w).

Definition bind {A B} (m : IO A) (k : A -> IO B) : IO B :=
  fun w =>
    match m w with
    | (Val a, w') => k a w'
    | (Exc e, w') => (Exc e, w')
    end.

Definition raise {A} (e : text) : IO A := fun w => (Exc e, w).

(** [try: body except Exception as e: handler(e)] *)
Definition try_except {A} (body : IO A) (handler : text -> IO A) : IO A :=
  fun w =>
    match body w with
    | (Val a, w') => (Val a, w')
    | (Exc e, w') => handler e w'
    end.

Notation "x <- m ;; k" := (bind m (fun x => k))
  (at level 61, m at next level, right associativity).
Notation "m ;;; k" := (bind m (fun _ => k))
  (at level 61, right associativity).

Definition print (line : text) : IO unit :=
  fun w => (Val tt, log (EvPrint line) w).

Definition no_such_file (p : Path) : text :=
  lit "[Errno 2] No such file or directory: '" ++ path_str p ++ lit "'".

(** [p.read_text(encoding='utf-8')] *)
Definition read_text (p : Path) : IO text :=
  fun w =>
    let w' := log (EvRead p) w in
    match fs w p with
    | None => (Exc (no_such_file p), w')
    | Some f =>
        match read_result f with
        | inl e => (Exc e, w')
        | inr t => (Val t, w')
        end
    end.

(** [p.write_text(content, encoding='utf-8')]: the whole file is replaced,
    or the call raises and the file is as before. *)
Definition write_text (p : Path) (content : text) : IO unit :=
  fun w =>
    let w' := log (EvWrite p content) w in
    match fs w p with
    | Some f =>
        match write_error f with
        | Some e => (Exc e, w')
        | None => (Val tt, store p {| read_result := inr content; write_error := None |} w')
        end
    | None => (Val tt, store p {| read_result := inr content; write_error := None |} w')
    end.

(** [p.exists()] *)
Definition exists_ (p : Path) : IO bool :=
  fun w => (Val (match fs w p with Some _ => true | None => false end), w).

(** ** [clean_html_file] *)

Definition clean_html_file (filepath : Path) (dry_run : bool) : IO bool :=
  try_except
    (content <- read_text filepath ;;
     let original := content in
     let content := apply_rules REPLACEMENTS content in
     if negb (text_eqb content original) then
       (if negb dry_run then write_text filepath content else ret tt) ;;;
       ret true
     else ret false)
    (fun e =>
       print (lit "Error processing " ++ path_str filepath ++ lit ": " ++ e) ;;;
       ret false).

(** ** [main] *)

Record args : Type := {
  dry_run : bool;
  single : option text
}.

(** [str(n)] *)
Definition str_nat (n : nat) : text :=
  list_ascii_of_string (DecimalString.NilEmpty.string_of_uint (Nat.to_uint n)).

Definition rule_line : text := repeat "-"%char 50.

(** The [for filepath in sorted(html_files)] loop, with its counter. *)
Fixpoint process_all (root : Path) (dry : bool) (files : list Path) (updated : nat)
  : IO nat :=
  match files with
  | [] => ret updated
  | filepath :: files' =>
      relative_path <-
        (match relative_to filepath root with
         | Some rel => ret rel
         | None => raise (path_str filepath ++ lit " is not in the subpath of " ++ path_str root)
         end) ;;
      changed <- clean_html_file filepath dry ;;
      if changed then
        let status := if dry then lit "Would update" else lit "Updated" in
        print (lit "  " ++ status ++ lit ": " ++ path_str relative_path) ;;;
        process_all root dry files' (updated + 1)
      else
        print (lit "  No changes: " ++ path_str relative_path) ;;;
        process_all root dry files' updated
  end.

(** [root] is [POSTS_DIR.parent]. A value of [--single] selects the
    single-file branch when it is a non-empty string. *)
Definition main (root : Path) (a : args) : IO unit :=
  let POSTS_DIR := root ++ [lit "posts"] in
  print (lit "Cleaning inline styles from blog posts...") ;;;
  print rule_line ;;;
  match single a with
  | Some (c :: s) =>
      let name := c :: s in
      let filepath := joinpath root name in
      found <- exists_ filepath ;;
      if found then
        changed <- clean_html_file filepath (dry_run a) ;;
        let status :=
          if dry_run a then lit "Would update"
          else if changed then lit "Updated" else lit "No changes" in
        print (lit "  " ++ status ++ lit ": " ++ name)
      else
        print (lit "  File not found: " ++ name)
  | _ =>
      html_files <- (fun w => (Val (rglob_html w POSTS_DIR), w)) ;;
      updated <- process_all root (dry_run a) (sorted html_files) 0 ;;
      print rule_line ;;;
      let action := if dry_run a then lit "Would update" else lit "Updated" in
      print (action ++ lit " " ++ str_nat updated ++ lit "/"
             ++ str_nat (length html_files) ++ lit " posts")
  end.

(** * Properties *)

Lemma REPLACEMENTS_compiled : compile_all REPLACEMENTS_src = Some REPLACEMENTS.
Proof. vm_compute. reflexivity. Qed.

Lemma REPLACEMENTS_length : length REPLACEMENTS = 27.
Proof. reflexivity. Qed.

(** ** What a match is *)

(** A declarative reading of the fragment: a text matches a pattern when it
    splits into one piece per atom. *)
Inductive piece : atom -> text -> Prop :=
  | piece_lit c : piece (Lit c) [c]
  | piece_star c w : ~ In c w -> piece (NotStar c) w
  | piece_group c w : ~ In c w -> piece (Group c) w.

Definition pieces (p : pattern) (ws : list text) : Prop := Forall2 piece p ws.

(** The pieces of the capturing atoms, in order. *)
Fixpoint captures (p : pattern) (ws : list text) : list text :=
  match p, ws with
  | Group _ :: p', w :: ws' => w :: captures p' ws'
  | _ :: p', _ :: ws' => captures p' ws'
  | _, _ => []
  end.

(** [w] is matched by [p] with the groups [caps]. *)
Definition matches (p : pattern) (w : text) (caps : list text) : Prop :=
  exists ws, pieces p ws /\ w = concat ws /\ caps = captures p ws.

(** The pattern matches at the start of [s]. *)
Definition matches_at (p : pattern) (s : text) : Prop :=
  exists w caps rest, matches p w caps /\ s = w ++ rest.

(** Patterns whose first atom is the literal [<]: every pattern of the
    table. Such a pattern has no empty match. *)
Definition head_lt (p : pattern) : bool :=
  match p with
  | Lit c :: _ => Ascii.eqb c LT
  | _ => false
  end.

Section MatchFacts.

Lemma star_sound (R : Type) c (k : text -> option R) s w r :
  star c k s = Some (w, r) ->
  ~ In c w /\ exists rest, s = w ++ rest /\ k rest = Some r.
Proof.
  revert w r. induction s as [|x s IH]; intros w r; simpl.
  - destruct (k []) as [r0|] eqn:E; simpl; [|discriminate].
    intros [= <- <-]. split; [tauto|]. exists []. auto.
  - destruct (Ascii.eqb x c) eqn:Exc.
    + destruct (k (x :: s)) as [r0|] eqn:E; simpl; [|discriminate].
      intros [= <- <-]. split; [tauto|]. exists (x :: s). auto.
    + destruct (star c k s) as [[w' r']|] eqn:Es.
      * intros [= <- <-]. destruct (IH _ _ eq_refl) as (Hn & rest & -> & Hk).
        split.
        -- intros [->|Hin]; [|tauto]. rewrite Ascii.eqb_refl in Exc. discriminate.
        -- exists rest. auto.
      * destruct (k (x :: s)) as [r0|] eqn:E; simpl; [|discriminate].
        intros [= <- <-]. split; [tauto|]. exists (x :: s). auto.
Qed.

Lemma star_stop (R : Type) c (k : text -> option R) s :
  k s <> None -> star c k s <> None.
Proof.
  intros Hk. destruct s as [|x s]; simpl.
  - destruct (k []); simpl; congruence.
  - destruct (Ascii.eqb x c).
    + destruct (k (x :: s)); simpl; congruence.
    + destruct (star c k s) as [[w r]|]; [congruence|].
      destruct (k (x :: s)); simpl; congruence.
Qed.

Lemma star_complete (R : Type) c (k : text -> option R) w rest :
  ~ In c w -> k rest <> None -> star c k (w ++ rest) <> None.
Proof.
  induction w as [|x w IH]; intros Hn Hk; simpl app.
  - now apply star_stop.
  - simpl. destruct (Ascii.eqb_spec x c) as [->|Hxc].
    + exfalso. apply Hn. now left.
    + destruct (star c k (w ++ rest)) as [[w' r]|] eqn:E; [congruence|].
      exfalso. apply IH; auto. intros Hin. apply Hn. now right.
Qed.

Lemma match_here_sound p : forall s caps rest,
  match_here p s = Some (caps, rest) ->
  exists w, matches p w caps /\ s = w ++ rest.
Proof.
  induction p as [|a p IH]; intros s caps rest; simpl.
  - intros [= <- <-]. exists []. split; [|reflexivity].
    exists []. repeat split. constructor.
  - destruct a as [c|c|c].
    + destruct s as [|x s]; [discriminate|].
      destruct (Ascii.eqb_spec x c) as [->|]; [|discriminate].
      intros H. destruct (IH _ _ _ H) as (w & (ws & Hp & -> & ->) & ->).
      exists (c :: concat ws). split; [|reflexivity].
      exists ([c] :: ws). repeat split. constructor; [constructor|assumption].
    + destruct (star c (match_here p) s) as [[w [caps' rest']]|] eqn:E;
        simpl; [|discriminate].
      intros [= <- <-].
      destruct (star_sound _ _ _ _ _ _ E) as (Hn & r & -> & Hk).
      destruct (IH _ _ _ Hk) as (w' & (ws & Hp & -> & ->) & ->).
      exists (w ++ concat ws). split; [|now rewrite app_assoc].
      exists (w :: ws). repeat split. constructor; [now constructor|assumption].
    + destruct (star c (match_here p) s) as [[w [caps' rest']]|] eqn:E;
        [|discriminate].
      intros [= <- <-].
      destruct (star_sound _ _ _ _ _ _ E) as (Hn & r & -> & Hk).
      destruct (IH _ _ _ Hk) as (w' & (ws & Hp & -> & ->) & ->).
      exists (w ++ concat ws). split; [|now rewrite app_assoc].
      exists (w :: ws). repeat split. constructor; [now constructor|assumption].
Qed.

Lemma match_here_complete p : forall ws rest,
  pieces p ws -> match_here p (concat ws ++ rest) <> None.
Proof.
  induction p as [|a p IH]; intros ws rest Hp; inversion Hp; subst; simpl.
  - discriminate.
  - match goal with H : piece _ _ |- _ => inversion H; subst end; simpl.
    + rewrite Ascii.eqb_refl. now apply IH.
    + rewrite <- app_assoc.
      pose proof (star_complete _ c (match_here p) y (concat l' ++ rest)) as Hs.
      destruct (star c (match_here p) (y ++ concat l' ++ rest));
        simpl; [discriminate|]. exfalso. apply Hs; auto.
    + rewrite <- app_assoc.
      pose proof (star_complete _ c (match_here p) y (concat l' ++ rest)) as Hs.
      destruct (star c (match_here p) (y ++ concat l' ++ rest)) as [[w [cs r]]|];
        [discriminate|]. exfalso. apply Hs; auto.
Qed.

Lemma match_here_iff p s : match_here p s <> None <-> matches_at p s.
Proof.
  split.
  - destruct (match_here p s) as [[caps rest]|] eqn:E; [|congruence].
    intros _. destruct (match_here_sound _ _ _ _ E) as (w & Hm & ->).
    now exists w, caps, rest.
  - intros (w & caps & rest & (ws & Hp & -> & _) & ->).
    now apply match_here_complete.
Qed.

Lemma match_here_none p s : match_here p s = None <-> ~ matches_at p s.
Proof.
  rewrite <- match_here_iff. destruct (match_here p s); split; try congruence.
  intros H. exfalso. apply H. discriminate.
Qed.

Lemma matches_head_lt p w caps :
  head_lt p = true -> matches p w caps -> exists w', w = LT :: w'.
Proof.
  destruct p as [|[c|c|c] p]; try discriminate. simpl.
  intros Hc (ws & Hp & -> & _). apply Ascii.eqb_eq in Hc. subst c.
  inversion Hp; subst.
  match goal with H : piece _ _ |- _ => inversion H; subst end.
  simpl. eauto.
Qed.

Lemma match_here_shorter p s caps rest :
  head_lt p = true -> match_here p s = Some (caps, rest) ->
  length rest < length s.
Proof.
  intros Hh E. destruct (match_here_sound _ _ _ _ E) as (w & Hm & ->).
  destruct (matches_head_lt _ _ _ Hh Hm) as (w' & ->).
  rewrite length_app. simpl. lia.
Qed.

End MatchFacts.

(** ** The scanning loop without its fuel *)

Section SubFacts.

Variable p : pattern.
Variable r : template.

Lemma sub_from_enough : forall n m s,
  length s < n -> length s < m -> sub_from n p r s = sub_from m p r s.
Proof.
  induction n as [|n IH]; intros m s Hn Hm; [lia|].
  destruct m as [|m]; [lia|]. simpl.
  assert (Hstep : match s with [] => [] | x :: s' => x :: sub_from n p r s' end
                = match s with [] => [] | x :: s' => x :: sub_from m p r s' end).
  { destruct s as [|x s']; [reflexivity|]. simpl in *. f_equal. apply IH; lia. }
  rewrite Hstep.
  destruct (match_here p s) as [[caps rest]|] eqn:E; [|reflexivity].
  destruct (Nat.ltb_spec (length rest) (length s)); [|reflexivity].
  f_equal. apply IH; lia.
Qed.

(** One step of [re.sub], for every pattern of the fragment. *)
Lemma sub_unfold s :
  Re.sub p r s =
  let step := match s with [] => [] | x :: s' => x :: Re.sub p r s' end in
  match match_here p s with
  | Some (caps, rest) =>
      if length rest <? length s
      then expand r caps ++ Re.sub p r rest
      else expand r caps ++ step
  | None => step
  end.
Proof.
  unfold Re.sub at 1. cbn [sub_from].
  assert (Hstep : match s with [] => [] | x :: s' => x :: sub_from (length s) p r s' end
                = match s with [] => [] | x :: s' => x :: Re.sub p r s' end).
  { destruct s as [|x s']; [reflexivity|]. unfold Re.sub. simpl length.
    f_equal. }
  rewrite Hstep. cbv zeta.
  destruct (match_here p s) as [[caps rest]|] eqn:E; [|reflexivity].
  destruct (Nat.ltb_spec (length rest) (length s)); [|reflexivity].
  f_equal. unfold Re.sub. apply sub_from_enough; lia.
Qed.

Hypothesis p_head : head_lt p = true.

Lemma sub_nil : Re.sub p r [] = [].
Proof.
  rewrite sub_unfold. destruct (match_here p []) as [[caps rest]|] eqn:E; [|reflexivity].
  apply (match_here_shorter _ _ _ _ p_head) in E. simpl in E. lia.
Qed.

Lemma sub_hit s caps rest :
  match_here p s = Some (caps, rest) ->
  Re.sub p r s = expand r caps ++ Re.sub p r rest.
Proof.
  intros E. rewrite sub_unfold, E. cbv zeta.
  pose proof (match_here_shorter _ _ _ _ p_head E) as Hlt.
  apply Nat.ltb_lt in Hlt. now rewrite Hlt.
Qed.

Lemma sub_miss x s :
  match_here p (x :: s) = None -> Re.sub p r (x :: s) = x :: Re.sub p r s.
Proof. intros E. now rewrite sub_unfold, E. Qed.

(** Induction along the scan. *)
Lemma sub_scan_ind (P : text -> text -> Prop) :
  P [] [] ->
  (forall x s, match_here p (x :: s) = None ->
     P s (Re.sub p r s) -> P (x :: s) (x :: Re.sub p r s)) ->
  (forall s caps rest, match_here p s = Some (caps, rest) ->
     length rest < length s ->
     P rest (Re.sub p r rest) -> P s (expand r caps ++ Re.sub p r rest)) ->
  forall s, P s (Re.sub p r s).
Proof.
  intros Hnil Hmiss Hhit s.
  remember (length s) as n eqn:Hn. revert s Hn.
  induction n as [n IH] using lt_wf_ind. intros s Hn.
  destruct (match_here p s) as [[caps rest]|] eqn:E.
  - rewrite (sub_hit _ _ _ E).
    pose proof (match_here_shorter _ _ _ _ p_head E) as Hlt.
    apply Hhit; auto. apply (IH (length rest)); [lia|reflexivity].
  - destruct s as [|x s].
    + rewrite sub_nil. exact Hnil.
    + rewrite (sub_miss _ _ E). apply Hmiss; auto.
      apply (IH (length s)); [simpl in Hn; lia|reflexivity].
Qed.

End SubFacts.

(** ** The order on paths is total *)

Record total_cmp {B : Type} (c : B -> B -> comparison) : Prop := {
  cmp_eq : forall x y, c x y = Eq -> x = y;
  cmp_refl : forall x, c x x = Eq;
  cmp_opp : forall x y, c x y = CompOpp (c y x);
  cmp_trans : forall x y z, c x y = Lt -> c y z = Lt -> c x z = Lt
}.

Arguments cmp_eq {B c}.
Arguments cmp_refl {B c}.
Arguments cmp_opp {B c}.
Arguments cmp_trans {B c}.

Section Lex.

Variable A : Type.
Variable cmp : A -> A -> comparison.
Hypothesis cmp_total : total_cmp cmp.

Lemma lex_total : total_cmp (lex cmp).
Proof.
  destruct cmp_total as [Heq Hrefl Hopp Htrans]. constructor.
  - induction x as [|a x IH]; destruct y as [|b y]; simpl; try discriminate; auto.
    destruct (cmp a b) eqn:E; try discriminate.
    intros H. f_equal; auto.
  - induction x as [|a x IH]; simpl; auto. now rewrite Hrefl.
  - induction x as [|a x IH]; destruct y as [|b y]; simpl; auto.
    rewrite (Hopp a b). destruct (cmp b a); simpl; auto.
  - induction x as [|a x IH]; destruct y as [|b y]; destruct z as [|c z];
      simpl; try discriminate; auto.
    destruct (cmp a b) eqn:Eab; try discriminate;
      destruct (cmp b c) eqn:Ebc; try discriminate; intros H1 H2.
    + apply Heq in Eab, Ebc. subst. rewrite Hrefl. eauto.
    + apply Heq in Eab. subst. now rewrite Ebc.
    + apply Heq in Ebc. subst. now rewrite Eab.
    + now rewrite (Htrans _ _ _ Eab Ebc).
Qed.

End Lex.

Lemma ascii_compare_total : total_cmp Ascii.compare.
Proof.
  constructor.
  - apply Ascii.compare_eq_iff.
  - intros x. unfold Ascii.compare. apply BinNat.N.compare_refl.
  - apply Ascii.compare_antisym.
  - intros x y z. unfold Ascii.compare.
    rewrite !BinNat.N.compare_lt_iff. apply BinNat.N.lt_trans.
Qed.

Lemma path_compare_total : total_cmp path_compare.
Proof. apply lex_total, lex_total, ascii_compare_total. Qed.

Arguments apply_rules : simpl never.
Arguments py : simpl never.
Arguments lit : simpl never.
Arguments path_str : simpl never.
Arguments str_nat : simpl never.
Arguments sorted : simpl never.

(** ** The rewrite as the specification words it *)

(** One rule applied to a text: scanning from the left, every position at
    which the matcher matches has its match replaced, and the scan goes on
    after the match; the other characters are kept. *)
Inductive replace_all (p : pattern) (r : template) : text -> text -> Prop :=
  | replace_done : replace_all p r [] []
  | replace_keep x s out :
      ~ matches_at p (x :: s) ->
      replace_all p r s out ->
      replace_all p r (x :: s) (x :: out)
  | replace_match w caps rest out :
      matches p w caps -> w <> [] ->
      replace_all p r rest out ->
      replace_all p r (w ++ rest) (expand r caps ++ out).

(** Each rule once, in table order, each on the result of the one before. *)
Inductive rewrite_spec : list rule -> text -> text -> Prop :=
  | rewrite_nil t : rewrite_spec [] t t
  | rewrite_cons p r rules t t1 t2 :
      replace_all p r t t1 ->
      rewrite_spec rules t1 t2 ->
      rewrite_spec ((p, r) :: rules) t t2.

Lemma sub_replace_all p r s :
  head_lt p = true -> replace_all p r s (Re.sub p r s).
Proof.
  intros Hh. apply (sub_scan_ind p r Hh).
  - constructor.
  - intros x s' E IH. constructor; auto. now apply match_here_none.
  - intros s' caps rest E Hlt IH.
    destruct (match_here_sound _ _ _ _ E) as (w & Hm & ->).
    constructor; auto. intros ->. simpl in Hlt. lia.
Qed.

Definition heads_ok (rules : list rule) : bool :=
  forallb (fun pr : rule => head_lt (fst pr)) rules.

Lemma table_heads : heads_ok REPLACEMENTS = true.
Proof. reflexivity. Qed.

Lemma apply_rules_cons p r rules t :
  apply_rules ((p, r) :: rules) t = apply_rules rules (Re.sub p r t).
Proof. reflexivity. Qed.

Lemma apply_rules_spec rules : forall t,
  heads_ok rules = true -> rewrite_spec rules t (apply_rules rules t).
Proof.
  induction rules as [|[p r] rules IH]; intros t Hh.
  - constructor.
  - simpl in Hh. apply andb_prop in Hh. destruct Hh as [Hp Hr].
    rewrite apply_rules_cons. econstructor.
    + now apply sub_replace_all.
    + now apply IH.
Qed.

Lemma text_eqb_eq a b : text_eqb a b = true <-> a = b.
Proof. unfold text_eqb. destruct (text_eq_dec a b); split; congruence. Qed.

Lemma text_eqb_refl a : text_eqb a a = true.
Proof. now apply text_eqb_eq. Qed.

(** ** What one call of [clean_html_file] does *)

Definition error_line (filepath : Path) (e : text) : event :=
  EvPrint (lit "Error processing " ++ path_str filepath ++ lit ": " ++ e).

(** The result and the world after a call, read off the stored file. *)
Definition clean_step (filepath : Path) (dry : bool) (w : world) : bool * world :=
  let w1 := log (EvRead filepath) w in
  match fs w filepath with
  | None => (false, log (error_line filepath (no_such_file filepath)) w1)
  | Some f =>
      match read_result f with
      | inl e => (false, log (error_line filepath e) w1)
      | inr D =>
          let content := apply_rules REPLACEMENTS D in
          if text_eqb content D then (false, w1)
          else if dry then (true, w1)
          else
            let w2 := log (EvWrite filepath content) w1 in
            match write_error f with
            | Some e => (false, log (error_line filepath e) w2)
            | None =>
                (true, store filepath {| read_result := inr content; write_error := None |} w2)
            end
      end
  end.

Lemma clean_html_file_step filepath dry w :
  clean_html_file filepath dry w =
  (Val (fst (clean_step filepath dry w)), snd (clean_step filepath dry w)).
Proof.
  unfold clean_html_file, clean_step, try_except, bind, read_text, write_text,
    ret, print, error_line.
  destruct (fs w filepath) as [f|] eqn:Ef; [|reflexivity].
  destruct (read_result f) as [e|D]; [reflexivity|].
  destruct (text_eqb (apply_rules REPLACEMENTS D) D); [reflexivity|].
  cbn [negb]. destruct dry; [reflexivity|]. cbn [negb fs log].
  rewrite Ef. destruct (write_error f); reflexivity.
Qed.

(** [clean_html_file] catches every exception of its body. *)
Lemma clean_html_file_returns filepath dry w :
  exists b, fst (clean_html_file filepath dry w) = Val b.
Proof. rewrite clean_html_file_step. cbn [fst]. eauto. Qed.

Lemma clean_step_dry_fs filepath w :
  fs (snd (clean_step filepath true w)) = fs w.
Proof.
  unfold clean_step.
  destruct (fs w filepath) as [f|]; [|reflexivity].
  destruct (read_result f) as [e|D]; [reflexivity|].
  destruct (text_eqb (apply_rules REPLACEMENTS D) D); reflexivity.
Qed.

(** A call touches no file but its own. *)
Lemma clean_step_frame filepath dry w q :
  q <> filepath -> fs (snd (clean_step filepath dry w)) q = fs w q.
Proof.
  intros Hq. unfold clean_step.
  destruct (fs w filepath) as [f|]; [|reflexivity].
  destruct (read_result f) as [e|D]; [reflexivity|].
  destruct (text_eqb (apply_rules REPLACEMENTS D) D); [reflexivity|].
  destruct dry; [reflexivity|]. destruct (write_error f); [reflexivity|].
  cbn [snd store fs log]. destruct (path_eq_dec q filepath); [contradiction|reflexivity].
Qed.

(** The result and the events of a call depend on the stored files only. *)
Definition clean_events (filepath : Path) (dry : bool) (fs0 : filesystem) : list event :=
  trace (snd (clean_step filepath dry {| fs := fs0; rglob_html := fun _ => []; trace := [] |})).

Definition clean_result (filepath : Path) (dry : bool) (fs0 : filesystem) : bool :=
  fst (clean_step filepath dry {| fs := fs0; rglob_html := fun _ => []; trace := [] |}).

Lemma clean_step_result filepath dry w :
  fst (clean_step filepath dry w) = clean_result filepath dry (fs w).
Proof.
  unfold clean_result, clean_step. cbn [fs].
  destruct (fs w filepath) as [f|]; [|reflexivity].
  destruct (read_result f) as [e|D]; [reflexivity|].
  destruct (text_eqb (apply_rules REPLACEMENTS D) D); [reflexivity|].
  destruct dry; [reflexivity|]. destruct (write_error f); reflexivity.
Qed.

Lemma clean_step_trace filepath dry w :
  trace (snd (clean_step filepath dry w)) = trace w ++ clean_events filepath dry (fs w).
Proof.
  unfold clean_events, clean_step. cbn [fs].
  destruct (fs w filepath) as [f|];
    [|cbn [snd log trace]; now rewrite <- app_assoc].
  destruct (read_result f) as [e|D];
    [cbn [snd log trace]; now rewrite <- app_assoc|].
  destruct (text_eqb (apply_rules REPLACEMENTS D) D); [reflexivity|].
  destruct dry; [reflexivity|].
  destruct (write_error f); cbn [snd log trace store]; now rewrite <- !app_assoc.
Qed.

(** ** [sorted] *)

Section SortedFacts.

Let le (a b : Path) : Prop := path_le a b = true.

Lemma path_le_total a b : path_le a b = true \/ path_le b a = true.
Proof.
  unfold path_le. rewrite (cmp_opp path_compare_total a b).
  destruct (path_compare b a); simpl; auto.
Qed.

Lemma path_le_antisym a b : path_le a b = true -> path_le b a = true -> a = b.
Proof.
  unfold path_le. rewrite (cmp_opp path_compare_total b a).
  destruct (path_compare a b) eqn:E; simpl; try discriminate.
  intros _ _. now apply (cmp_eq path_compare_total).
Qed.

Lemma path_le_trans a b c :
  path_le a b = true -> path_le b c = true -> path_le a c = true.
Proof.
  unfold path_le.
  destruct (path_compare a b) eqn:Eab; try discriminate;
    destruct (path_compare b c) eqn:Ebc; try discriminate; intros _ _.
  - apply (cmp_eq path_compare_total) in Eab. subst. now rewrite Ebc.
  - apply (cmp_eq path_compare_total) in Eab. subst. now rewrite Ebc.
  - apply (cmp_eq path_compare_total) in Ebc. subst. now rewrite Eab.
  - now rewrite (cmp_trans path_compare_total _ _ _ Eab Ebc).
Qed.

Lemma insert_perm x l : Permutation (x :: l) (insert x l).
Proof.
  induction l as [|y l IH]; simpl; [reflexivity|].
  destruct (path_le x y); [reflexivity|].
  rewrite perm_swap. now constructor.
Qed.

Lemma sorted_perm l : Permutation l (sorted l).
Proof.
  induction l as [|x l IH]; [reflexivity|].
  change (sorted (x :: l)) with (insert x (sorted l)).
  rewrite <- insert_perm. now constructor.
Qed.

Lemma insert_hd x y l :
  HdRel le y l -> le y x -> HdRel le y (insert x l).
Proof.
  intros H Hyx. destruct l as [|z l]; simpl.
  - now constructor.
  - inversion H; subst. destruct (path_le x z); now constructor.
Qed.

Lemma insert_sorted x l : Sorted le l -> Sorted le (insert x l).
Proof.
  induction 1 as [|y l Hs IH Hhd]; simpl.
  - repeat constructor.
  - destruct (path_le x y) eqn:E.
    + constructor; [now constructor|]. now constructor.
    + constructor; auto. apply insert_hd; auto.
      destruct (path_le_total x y) as [H|H]; [congruence|exact H].
Qed.

Lemma sorted_is_sorted l : Sorted le (sorted l).
Proof.
  induction l as [|x l IH]; [constructor|].
  change (sorted (x :: l)) with (insert x (sorted l)).
  now apply insert_sorted.
Qed.

Ltac le_saturate :=
  repeat match goal with
  | H : path_le ?x ?y = false |- _ =>
      lazymatch goal with
      | _ : path_le y x = true |- _ => fail
      | _ => destruct (path_le_total x y); [congruence|]
      end
  | H1 : path_le ?x ?y = true, H2 : path_le ?y ?z = true |- _ =>
      lazymatch goal with
      | _ : path_le x z = true |- _ => fail
      | _ => pose proof (path_le_trans _ _ _ H1 H2)
      end
  end.

Lemma insert_comm a b l : insert a (insert b l) = insert b (insert a l).
Proof.
  induction l as [|y l IH]; simpl.
  - destruct (path_le a b) eqn:Eab, (path_le b a) eqn:Eba; auto.
    + now rewrite (path_le_antisym _ _ Eab Eba).
    + le_saturate. congruence.
  - destruct (path_le b y) eqn:Eby, (path_le a y) eqn:Eay; simpl;
      rewrite ?Eby, ?Eay; try (now rewrite IH);
      destruct (path_le a b) eqn:Eab, (path_le b a) eqn:Eba; simpl;
      rewrite ?Eby, ?Eay; auto;
      try (rewrite (path_le_antisym _ _ Eab Eba); reflexivity);
      le_saturate; congruence.
Qed.

(** The order in which the directory is enumerated does not show. *)
Lemma sorted_perm_eq l1 l2 : Permutation l1 l2 -> sorted l1 = sorted l2.
Proof.
  induction 1 as [|x l1 l2 _ IH|x y l|l1 l2 l3 _ IH1 _ IH2].
  - reflexivity.
  - change (insert x (sorted l1) = insert x (sorted l2)). now rewrite IH.
  - change (insert y (insert x (sorted l)) = insert x (insert y (sorted l))).
    apply insert_comm.
  - congruence.
Qed.

End SortedFacts.

(** ** The batch loop *)

Definition status_text (dry changed : bool) (rel : Path) : text :=
  if changed
  then lit "  " ++ (if dry then lit "Would update" else lit "Updated") ++ lit ": " ++ path_str rel
  else lit "  No changes: " ++ path_str rel.

Definition under (root filepath : Path) : Prop := relative_to filepath root <> None.

Definition rel_of (root filepath : Path) : Path :=
  match relative_to filepath root with
  | Some rel => rel
  | None => []
  end.

(** One iteration: the call, then the status line. *)
Definition file_step (root : Path) (dry : bool) (filepath : Path) (w : world) : world :=
  let cs := clean_step filepath dry w in
  log (EvPrint (status_text dry (fst cs) (rel_of root filepath))) (snd cs).

Fixpoint batch_world (root : Path) (dry : bool) (files : list Path) (w : world) : world :=
  match files with
  | [] => w
  | f :: files' => batch_world root dry files' (file_step root dry f w)
  end.

Fixpoint batch_count (root : Path) (dry : bool) (files : list Path) (w : world) : nat :=
  match files with
  | [] => 0
  | f :: files' =>
      (if fst (clean_step f dry w) then 1 else 0)
      + batch_count root dry files' (file_step root dry f w)
  end.

Lemma process_all_eq root dry files : forall n w,
  Forall (under root) files ->
  process_all root dry files n w =
  (Val (n + batch_count root dry files w), batch_world root dry files w).
Proof.
  induction files as [|f files IH]; intros n w Hu.
  - cbn [process_all batch_count batch_world]. unfold ret. now rewrite Nat.add_0_r.
  - inversion Hu as [|? ? Hf Hfs]; subst.
    cbn [process_all batch_count batch_world]. unfold bind at 1.
    unfold file_step, rel_of. unfold under in Hf.
    destruct (relative_to f root) as [rel|]; [|congruence].
    unfold ret at 1. unfold bind at 1. rewrite clean_html_file_step.
    destruct (fst (clean_step f dry w)).
    + unfold bind, print. rewrite IH by assumption.
      unfold status_text. now rewrite Nat.add_assoc.
    + unfold bind, print. rewrite IH by assumption.
      reflexivity.
Qed.

Lemma file_step_fs_other root dry f w q :
  q <> f -> fs (file_step root dry f w) q = fs w q.
Proof. intros H. unfold file_step. cbn [fs log]. now apply clean_step_frame. Qed.

Lemma file_step_fs_dry root f w : fs (file_step root true f w) = fs w.
Proof. unfold file_step. cbn [fs log]. apply clean_step_dry_fs. Qed.

Lemma clean_result_ext f dry fs1 fs2 :
  fs1 f = fs2 f -> clean_result f dry fs1 = clean_result f dry fs2.
Proof.
  intros H. unfold clean_result, clean_step. cbn [fs]. rewrite H.
  destruct (fs2 f) as [n|]; [|reflexivity].
  destruct (read_result n) as [e|D]; [reflexivity|].
  destruct (text_eqb (apply_rules REPLACEMENTS D) D); [reflexivity|].
  destruct dry; [reflexivity|]. destruct (write_error n); reflexivity.
Qed.

Lemma clean_events_ext f dry fs1 fs2 :
  fs1 f = fs2 f -> clean_events f dry fs1 = clean_events f dry fs2.
Proof.
  intros H. unfold clean_events, clean_step. cbn [fs]. rewrite H.
  destruct (fs2 f) as [n|]; [|reflexivity].
  destruct (read_result n) as [e|D]; [reflexivity|].
  destruct (text_eqb (apply_rules REPLACEMENTS D) D); [reflexivity|].
  destruct dry; [reflexivity|]. destruct (write_error n); reflexivity.
Qed.

Lemma flat_map_agree (A B : Type) (f g : A -> list B) l :
  (forall a, In a l -> f a = g a) -> flat_map f l = flat_map g l.
Proof.
  induction l as [|a l IH]; intros H; [reflexivity|].
  simpl. rewrite H by now left. f_equal. apply IH. intros b Hb. apply H. now right.
Qed.

(** The events of one iteration, read off the files as stored before the
    run. *)
Definition file_events (root : Path) (dry : bool) (fs0 : filesystem) (f : Path)
  : list event :=
  clean_events f dry fs0
  ++ [EvPrint (status_text dry (clean_result f dry fs0) (rel_of root f))].

Lemma file_step_trace root dry f w :
  trace (file_step root dry f w) = trace w ++ file_events root dry (fs w) f.
Proof.
  unfold file_step, file_events. cbn [trace log].
  now rewrite clean_step_trace, clean_step_result, app_assoc.
Qed.

Lemma batch_world_trace root dry files : forall w,
  NoDup files ->
  trace (batch_world root dry files w) =
  trace w ++ flat_map (file_events root dry (fs w)) files.
Proof.
  induction files as [|f files IH]; intros w Hnd.
  - simpl. now rewrite app_nil_r.
  - inversion Hnd as [|? ? Hnotin Hnd']; subst.
    cbn [batch_world flat_map]. rewrite IH by assumption.
    rewrite file_step_trace, <- app_assoc. do 2 f_equal.
    apply flat_map_agree. intros q Hq.
    assert (Hqf : q <> f) by (intros ->; contradiction).
    unfold file_events.
    rewrite (clean_events_ext q dry _ (fs w)), (clean_result_ext q dry _ (fs w));
      auto using file_step_fs_other.
Qed.

Lemma batch_count_filter root dry files : forall w,
  NoDup files ->
  batch_count root dry files w =
  length (filter (fun f => clean_result f dry (fs w)) files).
Proof.
  induction files as [|f files IH]; intros w Hnd; [reflexivity|].
  inversion Hnd as [|? ? Hnotin Hnd']; subst.
  cbn [batch_count filter]. rewrite IH by assumption.
  rewrite clean_step_result.
  assert (Hext : filter (fun q => clean_result q dry (fs (file_step root dry f w))) files
               = filter (fun q => clean_result q dry (fs w)) files).
  { apply filter_ext_in. intros q Hq.
    apply clean_result_ext, file_step_fs_other. intros ->. contradiction. }
  rewrite Hext. destruct (clean_result f dry (fs w)); reflexivity.
Qed.

(** The events of the loop depend on the stored files and on the list. *)
Lemma batch_world_agree root dry files : forall w1 w2,
  fs w1 = fs w2 -> trace w1 = trace w2 ->
  fs (batch_world root dry files w1) = fs (batch_world root dry files w2)
  /\ trace (batch_world root dry files w1) = trace (batch_world root dry files w2)
  /\ batch_count root dry files w1 = batch_count root dry files w2.
Proof.
  induction files as [|f files IH]; intros w1 w2 Hfs Htr; [auto|].
  cbn [batch_world batch_count].
  assert (Hstep : fs (file_step root dry f w1) = fs (file_step root dry f w2)
               /\ trace (file_step root dry f w1) = trace (file_step root dry f w2)
               /\ fst (clean_step f dry w1) = fst (clean_step f dry w2)).
  { rewrite !file_step_trace, !clean_step_result, Hfs, Htr.
    repeat split. unfold file_step, clean_step. cbn [fs log]. rewrite Hfs.
    destruct (fs w2 f) as [n|]; [|cbn [snd fs log]; now rewrite Hfs].
    destruct (read_result n) as [e|D]; [cbn [snd fs log]; now rewrite Hfs|].
    destruct (text_eqb (apply_rules REPLACEMENTS D) D);
      [cbn [snd fs log]; now rewrite Hfs|].
    destruct dry; [cbn [snd fs log]; now rewrite Hfs|].
    destruct (write_error n); cbn [snd store fs log]; now rewrite Hfs. }
  destruct Hstep as (H1 & H2 & H3).
  destruct (IH _ _ H1 H2) as (H4 & H5 & H6). rewrite H3, H6. auto.
Qed.

(** ** The two branches of [main] *)

Definition header : event := EvPrint (lit "Cleaning inline styles from blog posts...").

Definition posts_dir (root : Path) : Path := root ++ [lit "posts"].

(** The value of [--single] takes the single-file branch. *)
Definition single_name (a : args) : option text :=
  match single a with
  | Some (c :: s) => Some (c :: s)
  | _ => None
  end.

Definition summary_text (dry : bool) (updated total : nat) : text :=
  (if dry then lit "Would update" else lit "Updated")
  ++ lit " " ++ str_nat updated ++ lit "/" ++ str_nat total ++ lit " posts".

Lemma main_batch root a w :
  single_name a = None ->
  let listing := rglob_html w (posts_dir root) in
  let w0 := log (EvPrint rule_line) (log header w) in
  Forall (under root) listing ->
  main root a w =
  (Val tt,
   log (EvPrint (summary_text (dry_run a)
                   (batch_count root (dry_run a) (sorted listing) w0)
                   (length listing)))
     (log (EvPrint rule_line)
        (batch_world root (dry_run a) (sorted listing) w0))).
Proof.
  intros Hs listing w0 Hu.
  assert (Hu' : Forall (under root) (sorted listing)).
  { eapply Permutation_Forall; [apply sorted_perm|exact Hu]. }
  unfold main, single_name in *.
  unfold bind at 1. unfold print at 1. unfold bind at 1. unfold print at 1.
  fold header. fold w0.
  assert (Hmode : match single a with Some (c :: s) => False | _ => True end).
  { destruct (single a) as [[|c s]|]; auto; discriminate. }
  destruct (single a) as [[|c s]|]; try contradiction.
  - unfold bind at 1.
    change (rglob_html w0 (root ++ [lit "posts"])) with listing.
    unfold bind at 1. rewrite (process_all_eq root (dry_run a) _ 0 w0 Hu').
    cbn [Nat.add]. unfold bind, print, summary_text. reflexivity.
  - unfold bind at 1.
    change (rglob_html w0 (root ++ [lit "posts"])) with listing.
    unfold bind at 1. rewrite (process_all_eq root (dry_run a) _ 0 w0 Hu').
    cbn [Nat.add]. unfold bind, print, summary_text. reflexivity.
Qed.

Lemma main_single_found root a w name f :
  single_name a = Some name ->
  fs w (joinpath root name) = Some f ->
  let w0 := log (EvPrint rule_line) (log header w) in
  let cs := clean_step (joinpath root name) (dry_run a) w0 in
  let status :=
    if dry_run a then lit "Would update"
    else if fst cs then lit "Updated" else lit "No changes" in
  main root a w =
  (Val tt, log (EvPrint (lit "  " ++ status ++ lit ": " ++ name)) (snd cs)).
Proof.
  intros Hs Hf w0 cs status. unfold main, single_name in *.
  unfold bind at 1. unfold print at 1. unfold bind at 1. unfold print at 1.
  fold header. fold w0.
  destruct (single a) as [[|c s]|]; try discriminate.
  injection Hs as <-.
  unfold bind at 1. unfold exists_.
  change (fs w0 (joinpath root (c :: s))) with (fs w (joinpath root (c :: s))).
  rewrite Hf. unfold bind at 1. rewrite clean_html_file_step. reflexivity.
Qed.

Lemma main_single_missing root a w name :
  single_name a = Some name ->
  fs w (joinpath root name) = None ->
  main root a w =
  (Val tt,
   log (EvPrint (lit "  File not found: " ++ name))
     (log (EvPrint rule_line) (log header w))).
Proof.
  intros Hs Hf. unfold main, single_name in *.
  unfold bind at 1. unfold print at 1. unfold bind at 1. unfold print at 1.
  fold header.
  destruct (single a) as [[|c s]|]; try discriminate.
  injection Hs as <-.
  unfold bind at 1. unfold exists_. cbn [fs log]. rewrite Hf. reflexivity.
Qed.

Lemma process_all_dry_fs root files : forall n w,
  fs (snd (process_all root true files n w)) = fs w.
Proof.
  induction files as [|f files IH]; intros n w; [reflexivity|].
  cbn [process_all]. unfold bind at 1.
  destruct (relative_to f root) as [rel|]; [|reflexivity].
  unfold ret at 1. unfold bind at 1. rewrite clean_html_file_step.
  pose proof (clean_step_dry_fs f w) as Hfs.
  destruct (fst (clean_step f true w)); unfold bind, print;
    rewrite IH; cbn [fs log]; exact Hfs.
Qed.

Lemma main_dry_fs root a w : dry_run a = true -> fs (snd (main root a w)) = fs w.
Proof.
  intros Hd. destruct (single_name a) as [name|] eqn:Hs.
  - destruct (fs w (joinpath root name)) as [f|] eqn:Hf.
    + rewrite (main_single_found root a w name f Hs Hf). cbn [snd fs log].
      rewrite Hd. now rewrite clean_step_dry_fs.
    + now rewrite (main_single_missing root a w name Hs Hf).
  - unfold main, single_name in *. rewrite Hd.
    unfold bind at 1. unfold print at 1. unfold bind at 1. unfold print at 1.
    assert (Hbatch : forall w0 : world, fs w0 = fs w ->
      fs (snd ((html_files <- (fun w1 => (Val (rglob_html w1 (root ++ [lit "posts"])), w1)) ;;
                updated <- process_all root true (sorted html_files) 0 ;;
                print rule_line ;;;
                print (lit "Would update" ++ lit " " ++ str_nat updated ++ lit "/"
                       ++ str_nat (length html_files) ++ lit " posts")) w0)) = fs w).
    { intros w0 H0. unfold bind at 1. unfold bind at 1.
      pose proof (process_all_dry_fs root (sorted (rglob_html w0 (root ++ [lit "posts"]))) 0 w0) as Hp.
      destruct (process_all root true (sorted (rglob_html w0 (root ++ [lit "posts"]))) 0 w0)
        as [[n|e] w1]; cbn [snd] in *; unfold bind, print; cbn [snd fs log]; congruence. }
    destruct (single a) as [[|c s]|]; try discriminate; apply Hbatch; reflexivity.
Qed.

(** The files read, in order. *)
Fixpoint reads (tr : list event) : list Path :=
  match tr with
  | [] => []
  | EvRead p :: tr' => p :: reads tr'
  | _ :: tr' => reads tr'
  end.

Lemma reads_app tr1 tr2 : reads (tr1 ++ tr2) = reads tr1 ++ reads tr2.
Proof.
  induction tr1 as [|[p|p c|l] tr1 IH]; simpl; auto. now rewrite IH.
Qed.

Lemma reads_file_events root dry fs0 f : reads (file_events root dry fs0 f) = [f].
Proof.
  unfold file_events, clean_events, clean_step. cbn [fs]. rewrite reads_app.
  destruct (fs0 f) as [n|]; [|reflexivity].
  destruct (read_result n) as [e|D]; [reflexivity|].
  destruct (text_eqb (apply_rules REPLACEMENTS D) D); [reflexivity|].
  destruct dry; [reflexivity|]. destruct (write_error n); reflexivity.
Qed.

Lemma reads_batch_world root dry files : forall w,
  reads (trace (batch_world root dry files w)) = reads (trace w) ++ files.
Proof.
  induction files as [|f files IH]; intros w.
  - simpl. now rewrite app_nil_r.
  - cbn [batch_world]. rewrite IH, file_step_trace, reads_app, reads_file_events.
    now rewrite <- app_assoc.
Qed.

(** The value [clean_html_file] returns for a file. *)
Definition reports_changed (dry : bool) (w : world) (f : Path) : bool :=
  match fst (clean_html_file f dry w) with
  | Val b => b
  | Exc _ => false
  end.

Lemma reports_changed_result dry w f :
  reports_changed dry w f = clean_result f dry (fs w).
Proof.
  unfold reports_changed. rewrite clean_html_file_step. cbn [fst].
  apply clean_step_result.
Qed.

(** ** A small site, for the examples *)

Module Sample.

Definition root : Path := [ []; lit "site" ].

Definition page (t : string) : file :=
  {| read_result := inr (py t); write_error := None |}.

Definition a_html : Path := root ++ [lit "posts"; lit "a.html"].
Definition b_html : Path := root ++ [lit "posts"; lit "b.html"].
Definition c_html : Path := root ++ [lit "posts"; lit "c.html"].

(** [a.html] is clean, [b.html] has a styled table, [c.html] is not UTF-8,
    and the directory is enumerated backwards. *)
Definition site : world :=
  {| fs := fun q =>
       if path_eq_dec q a_html then Some (page "<p>plain text</p>")
       else if path_eq_dec q b_html then Some (page "<table style='width:100%'>")
       else if path_eq_dec q c_html
            then Some {| read_result := inl (lit "'utf-8' codec can't decode byte 0xff");
                         write_error := None |}
       else None;
     rglob_html := fun d => [d ++ [lit "c.html"]; d ++ [lit "b.html"]; d ++ [lit "a.html"]];
     trace := [] |}.

(** The same site enumerated in another order. *)
Definition site' : world :=
  {| fs := fs site;
     rglob_html := fun d => [d ++ [lit "b.html"]; d ++ [lit "a.html"]; d ++ [lit "c.html"]];
     trace := [] |}.

Definition batch (dry : bool) : args := {| dry_run := dry; single := None |}.

Definition only (dry : bool) (name : string) : args :=
  {| dry_run := dry; single := Some (lit name) |}.

End Sample.

(** ** Lengths *)

(** The number of literal characters of a pattern and of a template, and
    the capture indices a template refers to. *)
Fixpoint lits (p : pattern) : nat :=
  match p with
  | [] => 0
  | Lit _ :: p' => S (lits p')
  | _ :: p' => lits p'
  end.

Fixpoint tlits (r : template) : nat :=
  match r with
  | [] => 0
  | TLit _ :: r' => S (tlits r')
  | TRef _ :: r' => tlits r'
  end.

Fixpoint ref_indices (r : template) : list nat :=
  match r with
  | [] => []
  | TLit _ :: r' => ref_indices r'
  | TRef k :: r' => (k - 1) :: ref_indices r'
  end.

Fixpoint distinct (ks : list nat) : bool :=
  match ks with
  | [] => true
  | k :: ks' => negb (existsb (Nat.eqb k) ks') && distinct ks'
  end.

(** A rule shrinks when its template has fewer literal characters than its
    pattern and uses no group twice. *)
Definition shrinks (pr : rule) : bool :=
  (tlits (snd pr) <? lits (fst pr)) && distinct (ref_indices (snd pr)).

Definition ref_total (ks : list nat) (caps : list text) : nat :=
  list_sum (map (fun k => length (nth k caps [])) ks).

Fixpoint clear (k : nat) (caps : list text) {struct caps} : list text :=
  match caps, k with
  | [], _ => []
  | _ :: cs, 0 => [] :: cs
  | c :: cs, S k' => c :: clear k' cs
  end.

Section LengthFacts.

Lemma distinct_NoDup ks : distinct ks = true -> NoDup ks.
Proof.
  induction ks as [|k ks IH]; simpl; [constructor|].
  intros H. apply andb_prop in H. destruct H as [Hk Hks].
  constructor; auto. intros Hin. apply negb_true_iff in Hk.
  assert (existsb (Nat.eqb k) ks = true); [|congruence].
  apply existsb_exists. exists k. split; auto. apply Nat.eqb_refl.
Qed.

Lemma nth_clear_other caps : forall k j,
  k <> j -> nth j (clear k caps) [] = nth j caps [].
Proof.
  induction caps as [|c cs IH]; intros k j Hkj; [reflexivity|].
  destruct k as [|k], j as [|j]; simpl; try congruence; auto.
Qed.

Lemma concat_clear_length caps : forall k,
  length (concat caps) = length (nth k caps []) + length (concat (clear k caps)).
Proof.
  induction caps as [|c cs IH]; intros k.
  - destruct k; reflexivity.
  - destruct k as [|k]; simpl; rewrite !length_app; [reflexivity|].
    rewrite (IH k). lia.
Qed.

Lemma ref_total_le ks : forall caps,
  NoDup ks -> ref_total ks caps <= length (concat caps).
Proof.
  induction ks as [|k ks IH]; intros caps Hnd; unfold ref_total; simpl; [lia|].
  inversion Hnd as [|? ? Hnotin Hnd']; subst.
  rewrite (concat_clear_length caps k).
  assert (Hsame : map (fun j => length (nth j caps [])) ks
                = map (fun j => length (nth j (clear k caps) [])) ks).
  { apply map_ext_in. intros j Hj. rewrite nth_clear_other; auto.
    intros ->. contradiction. }
  rewrite Hsame. apply Nat.add_le_mono_l. exact (IH (clear k caps) Hnd').
Qed.

Lemma expand_length r caps :
  length (expand r caps) = tlits r + ref_total (ref_indices r) caps.
Proof.
  induction r as [|[c|k] r IH]; simpl; [reflexivity|congruence|].
  rewrite length_app, IH. unfold ref_total. simpl. lia.
Qed.

Lemma pieces_length p : forall ws,
  pieces p ws ->
  lits p + length (concat (captures p ws)) <= length (concat ws).
Proof.
  induction p as [|a p IH]; intros ws Hp; inversion Hp; subst; simpl; [lia|].
  match goal with H : piece _ _ |- _ => inversion H; subst end;
    simpl; rewrite ?length_app;
    match goal with H : Forall2 _ _ _ |- _ => specialize (IH _ H) end; lia.
Qed.

(** Every match of a shrinking rule is replaced by a shorter string. *)
Lemma shrinks_match p r w caps :
  shrinks (p, r) = true -> matches p w caps -> length (expand r caps) < length w.
Proof.
  unfold shrinks. cbn [fst snd]. intros H (ws & Hp & -> & ->).
  apply andb_prop in H. destruct H as [Hl Hd].
  apply Nat.ltb_lt in Hl. apply distinct_NoDup in Hd.
  rewrite expand_length.
  pose proof (ref_total_le (ref_indices r) (captures p ws) Hd).
  pose proof (pieces_length p ws Hp). lia.
Qed.

Lemma sub_shrinks p r s :
  head_lt p = true -> shrinks (p, r) = true ->
  Re.sub p r s = s \/ length (Re.sub p r s) < length s.
Proof.
  intros Hh Hs. apply (sub_scan_ind p r Hh).
  - now left.
  - intros x s' _ [->|IH]; [now left|right; simpl; lia].
  - intros s' caps rest E Hlt IH. right.
    destruct (match_here_sound _ _ _ _ E) as (w & Hm & ->).
    pose proof (shrinks_match p r w caps Hs Hm).
    rewrite !length_app. destruct IH as [->|IH]; lia.
Qed.

Lemma apply_rules_shrinks rules : forall t,
  heads_ok rules = true -> forallb shrinks rules = true ->
  apply_rules rules t = t \/ length (apply_rules rules t) < length t.
Proof.
  induction rules as [|[p r] rules IH]; intros t Hh Hs; [now left|].
  simpl in Hh, Hs. apply andb_prop in Hh, Hs.
  destruct Hh as [Hp Hh], Hs as [Hpr Hs].
  rewrite apply_rules_cons.
  destruct (sub_shrinks p r t Hp Hpr) as [->|Hlt]; [now apply IH|].
  right. destruct (IH (Re.sub p r t) Hh Hs) as [->|Hlt']; lia.
Qed.

End LengthFacts.

Lemma table_shrinks : forallb shrinks REPLACEMENTS = true.
Proof. reflexivity. Qed.

(** ** Tags *)

(** Where a position of a document lies: outside any tag, inside a tag, or
    inside a double-quoted attribute value of a tag. A tag opens at [<] and
    closes at the first [>] that is not inside a quoted value. *)
Inductive place : Type := Outside | InTag | InValue.

(** One character further; [None] when a [<] occurs inside a quoted
    value. *)
Definition delta (s : place) (c : ascii) : option place :=
  match s with
  | Outside => if Ascii.eqb c LT then Some InTag else Some Outside
  | InTag =>
      if Ascii.eqb c GT then Some Outside
      else if Ascii.eqb c QUOTE then Some InValue
      else Some InTag
  | InValue =>
      if Ascii.eqb c LT then None
      else if Ascii.eqb c QUOTE then Some InTag
      else Some InValue
  end.

Fixpoint scan (s : place) (t : text) : option place :=
  match t with
  | [] => Some s
  | c :: t' =>
      match delta s c with
      | Some s' => scan s' t'
      | None => None
      end
  end.

(** No [<] occurs inside a quoted attribute value of the document. *)
Definition lt_free_values (D : text) : bool :=
  match scan Outside D with
  | Some _ => true
  | None => false
  end.

(** A wildcard [[^e]*] at a place where its characters cannot change the
    place: inside a value when it stops at the quote, outside when it stops
    at [<]. *)
Definition wild_ok (s : place) (e : ascii) : bool :=
  match s with
  | InValue => Ascii.eqb e QUOTE
  | Outside => Ascii.eqb e LT
  | InTag => false
  end.

(** The place after a match of the pattern that starts at place [s]. *)
Fixpoint pat_scan (s : place) (p : pattern) : option place :=
  match p with
  | [] => Some s
  | Lit c :: p' =>
      match delta s c with
      | Some s' => pat_scan s' p'
      | None => None
      end
  | NotStar e :: p' => if wild_ok s e then pat_scan s p' else None
  | Group e :: p' => if wild_ok s e then pat_scan s p' else None
  end.

(** The wildcard pieces of a match contain no [<]. *)
Definition lt_free_piece (a : atom) (w : text) : Prop :=
  match a with
  | Lit _ => True
  | _ => ~ In LT w
  end.

(** *** Texts with holes *)

(** [SC c] is the character [c]; [SV excl] is any text without the
    characters of [excl]. *)
Inductive satom : Type :=
  | SC (c : ascii)
  | SV (excl : list ascii).

Definition sym := list satom.

Definition excludes (excl : list ascii) (c : ascii) : bool :=
  existsb (Ascii.eqb c) excl.

Inductive inst1 : satom -> text -> Prop :=
  | inst_char c : inst1 (SC c) [c]
  | inst_hole excl w :
      (forall c, In c w -> excludes excl c = false) -> inst1 (SV excl) w.

Definition inst (y : sym) (t : text) : Prop :=
  exists ws, Forall2 inst1 y ws /\ t = concat ws.

(** The stop characters of the capturing groups of a pattern, in order. *)
Fixpoint groups (p : pattern) : list ascii :=
  match p with
  | [] => []
  | Group e :: p' => e :: groups p'
  | _ :: p' => groups p'
  end.

(** What a rule can put in place of a match in such a document:
    its template, with a hole for each group reference. *)
Definition sym_of (p : pattern) (r : template) : sym :=
  map (fun it =>
         match it with
         | TLit c => SC c
         | TRef k =>
             match nth_error (groups p) (k - 1) with
             | Some e => SV [e; LT]
             | None => SV [QUOTE; LT]
             end
         end) r.

Fixpoint sym_scan (s : place) (y : sym) : option place :=
  match y with
  | [] => Some s
  | SC c :: y' =>
      match delta s c with
      | Some s' => sym_scan s' y'
      | None => None
      end
  | SV excl :: y' =>
      match s with
      | InValue =>
          if excludes excl QUOTE && excludes excl LT then sym_scan s y' else None
      | Outside => if excludes excl LT then sym_scan s y' else None
      | InTag => None
      end
  end.

Section TagFacts.

Lemma scan_app t1 : forall s t2,
  scan s (t1 ++ t2) =
  match scan s t1 with
  | Some s' => scan s' t2
  | None => None
  end.
Proof.
  induction t1 as [|c t1 IH]; intros s t2; simpl; [reflexivity|].
  destruct (delta s c); auto.
Qed.

Lemma scan_lt s t :
  scan s (LT :: t) <> None -> scan s (LT :: t) = scan Outside (LT :: t).
Proof. destruct s; simpl; auto; congruence. Qed.

Lemma wild_piece s e w :
  wild_ok s e = true -> ~ In e w -> scan s w <> None ->
  scan s w = Some s /\ ~ In LT w.
Proof.
  intros Hw. induction w as [|c w IH]; intros Hn Hs; [simpl; tauto|].
  assert (Hce : c <> e) by (intros ->; apply Hn; now left).
  assert (Hn' : ~ In e w) by (intros H; apply Hn; now right).
  simpl in Hs |- *.
  destruct s; simpl in Hw; try discriminate; apply Ascii.eqb_eq in Hw; subst e;
    simpl in Hs |- *.
  - destruct (Ascii.eqb_spec c LT) as [->|Hc]; [congruence|].
    destruct (IH Hn' Hs) as [H1 H2]. split; [exact H1|].
    intros [H|H]; [congruence|contradiction].
  - destruct (Ascii.eqb_spec c LT) as [->|Hc]; [congruence|].
    destruct (Ascii.eqb_spec c QUOTE) as [->|Hq]; [congruence|].
    destruct (IH Hn' Hs) as [H1 H2]. split; [exact H1|].
    intros [H|H]; [congruence|contradiction].
Qed.

Lemma pat_scan_sound p : forall s s' ws,
  pat_scan s p = Some s' -> pieces p ws -> scan s (concat ws) <> None ->
  scan s (concat ws) = Some s' /\ Forall2 lt_free_piece p ws.
Proof.
  induction p as [|a p IH]; intros s s' ws Hp Hpc Hs;
    inversion Hpc as [|a' w p' ws' Hpiece Hrest]; subst.
  - simpl in *. split; [congruence|constructor].
  - simpl concat in *. rewrite scan_app in Hs |- *.
    inversion Hpiece as [c|c w' Hn|c w' Hn]; subst; simpl in Hp.
    + simpl in Hs |- *. destruct (delta s c) as [s1|]; [|congruence].
      destruct (IH _ _ _ Hp Hrest Hs) as [E Hl].
      split; [exact E|]. constructor; simpl; auto.
    + destruct (wild_ok s c) eqn:Hw; [|discriminate].
      assert (Hy : scan s w <> None) by (destruct (scan s w); congruence).
      destruct (wild_piece s c w Hw Hn Hy) as [E1 Hlt]. rewrite E1 in Hs |- *.
      destruct (IH _ _ _ Hp Hrest Hs) as [E Hl].
      split; [exact E|]. constructor; simpl; auto.
    + destruct (wild_ok s c) eqn:Hw; [|discriminate].
      assert (Hy : scan s w <> None) by (destruct (scan s w); congruence).
      destruct (wild_piece s c w Hw Hn Hy) as [E1 Hlt]. rewrite E1 in Hs |- *.
      destruct (IH _ _ _ Hp Hrest Hs) as [E Hl].
      split; [exact E|]. constructor; simpl; auto.
Qed.

Lemma hole_scan s excl w :
  (forall c, In c w -> excludes excl c = false) ->
  match s with
  | InValue => excludes excl QUOTE && excludes excl LT
  | Outside => excludes excl LT
  | InTag => false
  end = true ->
  scan s w = Some s.
Proof.
  intros Hw Hs. induction w as [|c w IH]; [reflexivity|].
  assert (Hc : excludes excl c = false) by (apply Hw; now left).
  assert (IH' : scan s w = Some s) by (apply IH; intros; apply Hw; now right).
  simpl. destruct s; try discriminate; simpl.
  - destruct (Ascii.eqb_spec c LT) as [->|]; [congruence|exact IH'].
  - apply andb_prop in Hs. destruct Hs as [Hq Hl].
    destruct (Ascii.eqb_spec c LT) as [->|]; [congruence|].
    destruct (Ascii.eqb_spec c QUOTE) as [->|]; [congruence|exact IH'].
Qed.

Lemma sym_scan_sound y : forall s s' ws,
  sym_scan s y = Some s' -> Forall2 inst1 y ws -> scan s (concat ws) = Some s'.
Proof.
  induction y as [|a y IH]; intros s s' ws Hy Hi;
    inversion Hi as [|a' w y' ws' Hone Hrest]; subst.
  - exact Hy.
  - simpl concat. rewrite scan_app.
    inversion Hone as [c|excl w' Hw]; subst; simpl in Hy.
    + simpl. destruct (delta s c); [|discriminate]. eauto.
    + assert (Hok : match s with
                    | InValue => excludes excl QUOTE && excludes excl LT
                    | Outside => excludes excl LT
                    | InTag => false
                    end = true).
      { destruct s; try discriminate;
          match goal with |- ?b = true => destruct b; [reflexivity|discriminate] end. }
      rewrite (hole_scan s excl w Hw Hok).
      destruct s; try discriminate; rewrite Hok in Hy; eauto.
Qed.

(** The captures of a match avoid their stop character, and [<] when the
    wildcard pieces do. *)
Lemma captures_classes p : forall ws,
  pieces p ws -> Forall2 lt_free_piece p ws ->
  Forall2 (fun e w => forall c, In c w -> excludes [e; LT] c = false)
    (groups p) (captures p ws).
Proof.
  induction p as [|a p IH]; intros ws Hp Hl;
    inversion Hp as [|a' w p' ws' Hpiece Hrest]; subst;
    inversion Hl as [|a'' w'' p'' ws'' Hfree Hfrees]; subst; simpl;
    [constructor|].
  inversion Hpiece as [c|c w' Hn|c w' Hn]; subst; simpl; auto.
  constructor; auto. intros x Hx. simpl in *.
  destruct (Ascii.eqb_spec x c) as [->|]; [contradiction|].
  destruct (Ascii.eqb_spec x LT) as [->|]; [contradiction|reflexivity].
Qed.

Lemma expand_inst p r ws :
  pieces p ws -> Forall2 lt_free_piece p ws ->
  inst (sym_of p r) (expand r (captures p ws)).
Proof.
  intros Hp Hl. pose proof (captures_classes p ws Hp Hl) as Hc.
  induction r as [|[c|k] r IH].
  - exists []. split; [constructor|reflexivity].
  - destruct IH as (us & Hu & E). exists ([c] :: us).
    split; [constructor; [constructor|exact Hu]|]. simpl. now rewrite E.
  - destruct IH as (us & Hu & E). exists (nth (k - 1) (captures p ws) [] :: us).
    split; [|simpl; now rewrite E].
    constructor; [|exact Hu].
    clear - Hc. revert Hc. generalize (k - 1) as i.
    generalize (groups p) as gs. generalize (captures p ws) as cs.
    intros cs gs i H. revert i. induction H as [|e w gs cs Hew H IH]; intros i.
    + destruct i; simpl; constructor; intros c [].
    + destruct i as [|i]; simpl; [now constructor|apply IH].
Qed.

End TagFacts.

(** ** Rules in documents whose attribute values have no [<] *)

Definition thead_lt (r : template) : bool :=
  match r with
  | TLit c :: _ => Ascii.eqb c LT
  | _ => false
  end.

(** A rule is tag to tag: pattern and template start with [<], and a match
    and its replacement both end outside a tag. *)
Definition rule_ok (pr : rule) : bool :=
  head_lt (fst pr) && thead_lt (snd pr)
  && match pat_scan Outside (fst pr) with Some Outside => true | _ => false end
  && match sym_scan Outside (sym_of (fst pr) (snd pr)) with
     | Some Outside => true
     | _ => false
     end.

(** [refute q y]: the pattern [q] matches at the start of no text that
    begins with an instance of [y]. *)
Fixpoint refute (q : pattern) : sym -> bool :=
  match q with
  | [] => fun _ => false
  | Lit c :: q' =>
      fix go (y : sym) : bool :=
        match y with
        | [] => false
        | SC x :: y' => if Ascii.eqb c x then refute q' y' else true
        | SV excl :: y' => if excludes excl c then go y' else false
        end
  | NotStar e :: q' =>
      fix skip (y : sym) : bool :=
        match y with
        | [] => false
        | SC x :: y' => refute q' y && (if Ascii.eqb x e then true else skip y')
        | SV _ :: y' => refute q' y && skip y'
        end
  | Group e :: q' =>
      fix skip (y : sym) : bool :=
        match y with
        | [] => false
        | SC x :: y' => refute q' y && (if Ascii.eqb x e then true else skip y')
        | SV _ :: y' => refute q' y && skip y'
        end
  end.

Section RuleFacts.

Lemma match_in_tags p r w caps s rest :
  rule_ok (p, r) = true -> matches p w caps -> scan s (w ++ rest) <> None ->
  scan s (w ++ rest) = scan Outside rest
  /\ inst (sym_of p r) (expand r caps)
  /\ forall t, scan s (expand r caps ++ t) = scan Outside t.
Proof.
  unfold rule_ok. cbn [fst snd]. intros Hok Hm Hs.
  apply andb_prop in Hok. destruct Hok as [Hok Hy].
  apply andb_prop in Hok. destruct Hok as [Hok Hp].
  apply andb_prop in Hok. destruct Hok as [Hh Ht].
  destruct (matches_head_lt p w caps Hh Hm) as (w' & ->).
  pose proof (scan_lt s (w' ++ rest) Hs) as Hstart.
  change (LT :: w' ++ rest) with ((LT :: w') ++ rest) in Hstart.
  rewrite Hstart in Hs.
  destruct Hm as (ws & Hpc & Ew & ->).
  destruct (pat_scan Outside p) as [[| |]|] eqn:Ep; try discriminate.
  assert (Hw : scan Outside (concat ws) <> None).
  { rewrite <- Ew. rewrite scan_app in Hs.
    destruct (scan Outside (LT :: w')); congruence. }
  destruct (pat_scan_sound p Outside Outside ws Ep Hpc Hw) as [E Hl].
  pose proof (expand_inst p r ws Hpc Hl) as Hi.
  split; [|split; [exact Hi|]].
  - rewrite Hstart, scan_app, Ew, E. reflexivity.
  - intros t. destruct Hi as (us & Hu & Eu).
    destruct (sym_scan Outside (sym_of p r)) as [[| |]|] eqn:Ey; try discriminate.
    pose proof (sym_scan_sound _ _ _ _ Ey Hu) as Hr. rewrite <- Eu in Hr.
    assert (Hout : scan Outside (expand r (captures p ws) ++ t) = scan Outside t)
      by now rewrite scan_app, Hr.
    rewrite <- Hout.
    destruct r as [|[c|k] r]; try discriminate. simpl in Ht.
    apply Ascii.eqb_eq in Ht. subst c.
    destruct s; [reflexivity|reflexivity|].
    exfalso. apply Hs. rewrite <- Hstart. reflexivity.
Qed.

(** A pass of a tag-to-tag rule keeps the places. *)
Lemma sub_keeps_scan p r :
  rule_ok (p, r) = true ->
  forall t s s', scan s t = Some s' -> scan s (Re.sub p r t) = Some s'.
Proof.
  intros Hok.
  assert (Hh : head_lt p = true).
  { unfold rule_ok in Hok. cbn [fst snd] in Hok.
    repeat (apply andb_prop in Hok; destruct Hok as [Hok _]). exact Hok. }
  intros t. apply (sub_scan_ind p r Hh
    (fun t out => forall s s', scan s t = Some s' -> scan s out = Some s')).
  - auto.
  - intros x t' _ IH s s'. simpl. destruct (delta s x); [apply IH|discriminate].
  - intros t' caps rest E _ IH s s' Hs.
    destruct (match_here_sound _ _ _ _ E) as (w & Hm & ->).
    assert (Hne : scan s (w ++ rest) <> None) by congruence.
    destruct (match_in_tags p r w caps s rest Hok Hm Hne) as (E1 & _ & E3).
    rewrite E1 in Hs. rewrite E3. now apply IH.
Qed.

Lemma refute_sound q : forall y ws rest,
  refute q y = true -> Forall2 inst1 y ws -> matches_at q (concat ws ++ rest) -> False.
Proof.
  assert (Hstar : forall e q',
    (forall y ws rest, refute q' y = true -> Forall2 inst1 y ws ->
       forall qs rest', pieces q' qs -> concat ws ++ rest = concat qs ++ rest' -> False) ->
    forall (skip : sym -> bool),
      (forall x y', skip (SC x :: y') =
         refute q' (SC x :: y') && (if Ascii.eqb x e then true else skip y')) ->
      (forall ex y', skip (SV ex :: y') = refute q' (SV ex :: y') && skip y') ->
      skip [] = false ->
      forall y ws rest v qs rest', skip y = true -> Forall2 inst1 y ws ->
        ~ In e v -> pieces q' qs ->
        concat ws ++ rest = v ++ concat qs ++ rest' -> False).
  { intros e q' IHq skip Hsc Hsv Hnil y.
    induction y as [|a y IHy]; intros ws rest v qs rest' Hskip Hi Hv Hqs E;
      [congruence|].
    inversion Hi as [|a' w y' ws' Hone Hrest]; subst.
    inversion Hone as [x|excl w' Hw]; subst.
    - rewrite Hsc in Hskip. apply andb_prop in Hskip. destruct Hskip as [Hq Hk].
      destruct v as [|x0 v].
      + exact (IHq _ _ _ Hq Hi _ _ Hqs E).
      + simpl in E. injection E as <- E.
        destruct (Ascii.eqb_spec x e) as [->|_]; [apply Hv; now left|].
        apply (IHy ws' rest v qs rest' Hk Hrest); auto.
        intros H. apply Hv. now right.
    - rewrite Hsv in Hskip. apply andb_prop in Hskip. destruct Hskip as [Hq Hk].
      simpl concat in E. rewrite <- app_assoc in E.
      destruct (app_eq_app _ _ _ _ E) as (l & [[-> E2]|[-> E2]]).
      + assert (Hi' : Forall2 inst1 (SV excl :: y) (l :: ws')).
        { constructor; auto. constructor. intros c Hc. apply Hw.
          apply in_or_app. now right. }
        apply (IHq _ _ rest Hq Hi' qs rest' Hqs). simpl. now rewrite <- app_assoc.
      + apply (IHy ws' rest l qs rest' Hk Hrest); auto.
        intros H. apply Hv. apply in_or_app. now right. }
  assert (Hgen : forall q y ws rest, refute q y = true -> Forall2 inst1 y ws ->
            forall qs rest', pieces q qs -> concat ws ++ rest = concat qs ++ rest' -> False).
  { clear q. induction q as [|a q IHq]; intros y ws rest Hr Hi qs rest' Hqs E.
    - destruct y; discriminate.
    - inversion Hqs as [|a' v q' qs' Hpiece Hrestq]; subst.
      inversion Hpiece as [c|e v' Hv|e v' Hv]; subst.
      + revert ws rest Hr Hi E. induction y as [|b y IHy]; intros ws rest Hr Hi E;
          [discriminate|].
        inversion Hi as [|b' w y' ws' Hone Hrest]; subst.
        inversion Hone as [x|excl w' Hw]; subst.
        * simpl in Hr, E. injection E as -> E.
          rewrite Ascii.eqb_refl in Hr. exact (IHq _ _ _ Hr Hrest _ _ Hrestq E).
        * simpl in Hr. destruct (excludes excl c) eqn:Hex; [|discriminate].
          destruct w as [|x w].
          -- exact (IHy ws' rest Hr Hrest E).
          -- simpl in E. injection E as -> E.
             rewrite (Hw c) in Hex by now left. discriminate.
      + apply (Hstar e q IHq (refute (NotStar e :: q))
                 (fun _ _ => eq_refl) (fun _ _ => eq_refl) eq_refl
                 y ws rest v qs' rest' Hr Hi Hv Hrestq).
        rewrite E. simpl. now rewrite <- app_assoc.
      + apply (Hstar e q IHq (refute (Group e :: q))
                 (fun _ _ => eq_refl) (fun _ _ => eq_refl) eq_refl
                 y ws rest v qs' rest' Hr Hi Hv Hrestq).
        rewrite E. simpl. now rewrite <- app_assoc. }
  intros y ws rest Hr Hi (w & caps & rest' & (qs & Hqs & -> & _) & E).
  exact (Hgen q y ws rest Hr Hi qs rest' Hqs E).
Qed.

End RuleFacts.

(** ** Texts a pattern matches nowhere *)

(** [q] matches at no position of [t]. *)
Fixpoint clean (q : pattern) (t : text) : Prop :=
  match_here q t = None
  /\ match t with
     | [] => True
     | _ :: t' => clean q t'
     end.

(** The tails of a pattern that start at one of its literal [<]. *)
Fixpoint lt_tails (q : pattern) : list pattern :=
  match q with
  | [] => []
  | Lit c :: q' => (if Ascii.eqb c LT then [q] else []) ++ lt_tails q'
  | _ :: q' => lt_tails q'
  end.

Definition inner_lt_tails (q : pattern) : list pattern := lt_tails (tl q).

Fixpoint tails (y : sym) : list sym :=
  match y with
  | [] => []
  | _ :: y' => y :: tails y'
  end.

(** The replacement of rule [pr] gives the pattern [q] nothing to match:
    [q] matches at no position inside the replacement, and no part of [q]
    that starts at an inner [<] matches where the replacement starts. *)
Definition pair_ok (q : pattern) (pr : rule) : bool :=
  let y := sym_of (fst pr) (snd pr) in
  forallb (refute q) (tails y)
  && forallb (fun q2 => refute q2 y) (inner_lt_tails q).

Definition table_ok (rules : list rule) : bool :=
  forallb rule_ok rules
  && forallb (fun pr => forallb (fun qr : rule => pair_ok (fst qr) pr) rules) rules.

Lemma table_checked : table_ok REPLACEMENTS = true.
Proof. vm_compute. reflexivity. Qed.

Section CleanFacts.

Lemma clean_app_r q a : forall b, clean q (a ++ b) -> clean q b.
Proof.
  induction a as [|x a IH]; intros b H; [exact H|].
  simpl in H. apply IH. tauto.
Qed.

Lemma clean_head q t : clean q t -> match_here q t = None.
Proof. destruct t; simpl; tauto. Qed.

Lemma clean_sub_id q r t : head_lt q = true -> clean q t -> Re.sub q r t = t.
Proof.
  intros Hh. induction t as [|x t IH]; intros Hc.
  - now apply sub_nil.
  - simpl in Hc. destruct Hc as [E Hc].
    rewrite (sub_miss q r x t E). f_equal. now apply IH.
Qed.

Lemma clean_app_intro q t R :
  (forall R1 R2, R = R1 ++ R2 -> R2 <> [] -> match_here q (R2 ++ t) = None) ->
  clean q t -> clean q (R ++ t).
Proof.
  induction R as [|x R IH]; intros H Hc; [exact Hc|].
  simpl. split.
  - apply (H [] (x :: R)); [reflexivity|discriminate].
  - apply IH; auto. intros R1 R2 -> Hne. apply (H (x :: R1) R2); auto.
Qed.

Lemma app_lt_split (a b u v : text) :
  a ++ b = u ++ LT :: v -> ~ In LT a -> exists u', u = a ++ u' /\ b = u' ++ LT :: v.
Proof.
  revert u. induction a as [|x a IH]; intros u E Hn.
  - exists u. auto.
  - destruct u as [|y u]; simpl in E.
    + injection E as -> _. exfalso. apply Hn. now left.
    + injection E as -> E. destruct (IH u E) as (u' & -> & ->).
      * intros H. apply Hn. now right.
      * exists u'. auto.
Qed.

(** In a match whose wildcard pieces have no [<], a [<] that is not the
    first character is one of the pattern's own. *)
Lemma pieces_split_lt q : forall ws u v,
  pieces q ws -> Forall2 lt_free_piece q ws -> concat ws = u ++ LT :: v ->
  exists q1 q2 ws1 ws2,
    q = q1 ++ Lit LT :: q2 /\ pieces q1 ws1 /\ pieces q2 ws2
    /\ u = concat ws1 /\ v = concat ws2.
Proof.
  induction q as [|a q IH]; intros ws u v Hp Hl E;
    inversion Hp as [|a' w q' ws' Hpiece Hrest]; subst;
    inversion Hl as [|a'' w'' q'' ws'' Hfree Hfrees]; subst.
  - destruct u; discriminate.
  - simpl in E.
    assert (Hwild : ~ In LT w ->
      exists q1 q2 ws1 ws2,
        a :: q = q1 ++ Lit LT :: q2 /\ pieces q1 ws1 /\ pieces q2 ws2
        /\ u = concat ws1 /\ v = concat ws2).
    { intros Hn. destruct (app_lt_split _ _ _ _ E Hn) as (u' & -> & E').
      destruct (IH _ _ _ Hrest Hfrees E') as (q1 & q2 & ws1 & ws2 & -> & H1 & H2 & -> & ->).
      exists (a :: q1), q2, (w :: ws1), ws2. repeat split; auto.
      constructor; auto. }
    inversion Hpiece as [c|e w' Hn|e w' Hn]; subst; simpl in Hfree; auto.
    destruct u as [|x u]; simpl in E.
    + injection E as -> E. exists [], q, [], ws'. repeat split; auto. constructor.
    + injection E as -> E.
      destruct (IH _ _ _ Hrest Hfrees E) as (q1 & q2 & ws1 & ws2 & -> & H1 & H2 & -> & ->).
      exists (Lit x :: q1), q2, ([x] :: ws1), ws2. repeat split; auto.
      constructor; auto.
Qed.

Lemma lt_tails_in q1 : forall q2, In (Lit LT :: q2) (lt_tails (q1 ++ Lit LT :: q2)).
Proof.
  induction q1 as [|a q1 IH]; intros q2.
  - simpl. now left.
  - simpl. destruct a; auto. apply in_or_app. right. apply IH.
Qed.

(** A non-empty end of an instance is an instance of a tail. *)
Lemma inst_suffix y : forall ws t1 t2,
  Forall2 inst1 y ws -> concat ws = t1 ++ t2 -> t2 <> [] ->
  exists y2 ws2, In y2 (tails y) /\ Forall2 inst1 y2 ws2 /\ t2 = concat ws2.
Proof.
  induction y as [|a y IH]; intros ws t1 t2 Hi E Hne;
    inversion Hi as [|a' w y' ws' Hone Hrest]; subst.
  - simpl in E. destruct t1, t2; try discriminate. congruence.
  - simpl in E. symmetry in E.
    destruct (app_eq_app _ _ _ _ E) as (l & [[-> E2]|[-> E2]]).
    + destruct (IH ws' l t2 Hrest E2 Hne) as (y2 & ws2 & Hin & Hi2 & ->).
      exists y2, ws2. split; [now right|]. auto.
    + remember (t1 ++ l) as w eqn:Ew. destruct Hone as [c|excl w Hw].
      * destruct t1 as [|x t1].
        -- simpl in Ew. subst l.
           exists (SC c :: y), ([c] :: ws'). split; [now left|]. auto.
        -- injection Ew as <- Ew. destruct t1; [|discriminate]. simpl in Ew. subst l.
           simpl in E2. subst t2.
           destruct (IH ws' [] (concat ws') Hrest eq_refl Hne)
             as (y2 & ws2 & Hin & Hi2 & E3).
           exists y2, ws2. split; [now right|]. auto.
      * subst w. exists (SV excl :: y), (l :: ws'). split; [now left|].
        split; [|now rewrite E2].
        constructor; auto. constructor. intros c Hc. apply Hw.
        apply in_or_app. now right.
Qed.

End CleanFacts.

Section Idempotence.

(** Up to the first replaced match a pass copies the text. *)
Lemma sub_first_change p r t :
  head_lt p = true ->
  Re.sub p r t = t
  \/ exists u w caps rest,
       t = u ++ w ++ rest /\ matches p w caps
       /\ Re.sub p r t = u ++ expand r caps ++ Re.sub p r rest.
Proof.
  intros Hh. apply (sub_scan_ind p r Hh
    (fun t out => out = t \/ exists u w caps rest,
       t = u ++ w ++ rest /\ matches p w caps
       /\ out = u ++ expand r caps ++ Re.sub p r rest)).
  - now left.
  - intros x t' _ [->|(u & w & caps & rest & -> & Hm & ->)]; [now left|].
    right. exists (x :: u), w, caps, rest. auto.
  - intros t' caps rest E _ _. right.
    destruct (match_here_sound _ _ _ _ E) as (w & Hm & ->).
    exists [], w, caps, rest. auto.
Qed.

Lemma expand_head r caps :
  thead_lt r = true -> exists R, expand r caps = LT :: R.
Proof.
  destruct r as [|[c|k] r]; try discriminate. simpl.
  intros H. apply Ascii.eqb_eq in H. subst. eauto.
Qed.

Lemma rule_ok_heads p r :
  rule_ok (p, r) = true -> head_lt p = true /\ thead_lt r = true.
Proof.
  unfold rule_ok. cbn [fst snd]. intros H.
  apply andb_prop in H. destruct H as [H _].
  apply andb_prop in H. destruct H as [H _].
  apply andb_prop in H. exact H.
Qed.

Variables (q p : pattern) (r : template).
Hypothesis q_head : head_lt q = true.
Hypothesis q_scan : pat_scan Outside q <> None.
Hypothesis pr_ok : rule_ok (p, r) = true.
Hypothesis qpr_ok : pair_ok q (p, r) = true.

Let p_head : head_lt p = true := proj1 (rule_ok_heads p r pr_ok).
Let r_head : thead_lt r = true := proj2 (rule_ok_heads p r pr_ok).

(** Nothing inside a replacement is a match of [q]. *)
Lemma no_match_in_replacement w caps s rest t R1 R2 :
  matches p w caps -> scan s (w ++ rest) <> None ->
  expand r caps = R1 ++ R2 -> R2 <> [] ->
  match_here q (R2 ++ t) = None.
Proof.
  intros Hm Hs E Hne.
  destruct (match_in_tags p r w caps s rest pr_ok Hm Hs) as (_ & (ws & Hi & Ew) & _).
  rewrite Ew in E.
  destruct (inst_suffix _ ws R1 R2 Hi E Hne) as (y2 & ws2 & Hin & Hi2 & ->).
  apply match_here_none. intros Hat.
  apply (refute_sound q y2 ws2 t); auto.
  pose proof qpr_ok as H. unfold pair_ok in H. cbn [fst snd] in H.
  apply andb_prop in H. destruct H as [H _].
  rewrite forallb_forall in H. now apply H.
Qed.

(** No match of [q] runs from the copied text into a replacement. *)
Lemma no_match_into_replacement u w caps rest t s :
  u <> [] -> matches p w caps ->
  scan s (u ++ w ++ rest) <> None ->
  scan s (u ++ expand r caps ++ t) <> None ->
  matches_at q (u ++ expand r caps ++ t) ->
  matches_at q (u ++ w ++ rest).
Proof.
  intros Hu Hm Hs Hs' (w' & caps' & rest' & Hq & E).
  destruct (app_eq_app _ _ _ _ E) as (l & [[-> E2]|[-> E2]]).
  - (* the match ends inside the copied text *)
    exists w', caps', (l ++ w ++ rest). split; [exact Hq|]. now rewrite <- app_assoc.
  - destruct l as [|c l].
    + rewrite app_nil_r in *. exists u, caps', (w ++ rest). auto.
    + exfalso.
      destruct (expand_head r caps r_head) as (R & ER).
      rewrite ER in E2. simpl in E2. injection E2 as <- E2.
      (* the wildcard pieces of the match of [q] have no [<] *)
      destruct (matches_head_lt q _ _ q_head Hq) as (w0 & Ew0).
      assert (Hs2 : scan s ((LT :: w0) ++ rest') <> None)
        by (rewrite <- Ew0, <- E; exact Hs').
      destruct Hq as (qs & Hqs & Eqs & _).
      assert (Hw' : scan Outside (concat qs) <> None).
      { rewrite <- Eqs, Ew0.
        change ((LT :: w0) ++ rest') with (LT :: w0 ++ rest') in Hs2.
        rewrite (scan_lt s (w0 ++ rest') Hs2) in Hs2.
        change (LT :: w0 ++ rest') with ((LT :: w0) ++ rest') in Hs2.
        rewrite scan_app in Hs2. destruct (scan Outside (LT :: w0)); congruence. }
      destruct (pat_scan Outside q) as [s0|] eqn:Eq0; [|congruence].
      destruct (pat_scan_sound q Outside s0 qs Eq0 Hqs Hw') as [_ Hl].
      symmetry in Eqs.
      destruct (pieces_split_lt q qs u l Hqs Hl Eqs)
        as (q1 & q2 & ws1 & ws2 & Eq & Hp1 & Hp2 & Eu & El).
      assert (Hq1 : q1 <> []).
      { intros ->. inversion Hp1; subst. now apply Hu. }
      assert (Hin : In (Lit LT :: q2) (inner_lt_tails q)).
      { unfold inner_lt_tails. rewrite Eq. destruct q1 as [|a q1]; [congruence|].
        simpl. apply lt_tails_in. }
      pose proof qpr_ok as H. unfold pair_ok in H. cbn [fst snd] in H.
      apply andb_prop in H. destruct H as [_ H].
      rewrite forallb_forall in H. specialize (H _ Hin).
      (* the replacement is an instance of the rule's text with holes *)
      assert (Hsw : scan s (u ++ w ++ rest) <> None) by exact Hs.
      rewrite scan_app in Hsw. destruct (scan s u) as [s1|] eqn:Esu; [|congruence].
      destruct (match_in_tags p r w caps s1 rest pr_ok Hm Hsw)
        as (_ & (ws & Hi & Ew) & _).
      apply (refute_sound (Lit LT :: q2) (sym_of p r) ws t H Hi).
      exists (LT :: l), (captures (Lit LT :: q2) ([LT] :: ws2)), rest'.
      split.
      * exists ([LT] :: ws2). repeat split; [|simpl; now rewrite El].
        constructor; [constructor|exact Hp2].
      * rewrite <- Ew, ER. simpl. now rewrite E2.
Qed.

(** A pass of the rule [(p, r)] over such a text leaves no match of
    [q], when there was none before or [q] is the rule's own pattern. *)
Lemma sub_keeps_clean : forall t s,
  scan s t <> None -> q = p \/ clean q t -> clean q (Re.sub p r t).
Proof.
  intros t. apply (sub_scan_ind p r p_head
    (fun t out => forall s, scan s t <> None -> q = p \/ clean q t -> clean q out)).
  - intros s _ _. simpl. split; [|exact I].
    destruct (match_here q []) as [[caps rest]|] eqn:E; [|reflexivity].
    apply (match_here_shorter _ _ _ _ q_head) in E. simpl in E. lia.
  - intros x t' E IH s Hs Hc.
    assert (Hno : match_here q (x :: t') = None).
    { destruct Hc as [->|Hc]; [exact E|exact (clean_head _ _ Hc)]. }
    simpl. split.
    + apply match_here_none. intros Hat.
      destruct (sub_first_change p r (x :: t') p_head) as [Esame|Hch].
      * rewrite (sub_miss p r x t' E) in Esame. rewrite Esame in Hat.
        apply match_here_none in Hno. contradiction.
      * destruct Hch as (u & w & caps & rest & Et & Hm & Eout).
        rewrite (sub_miss p r x t' E) in Eout.
        assert (Hu : u <> []).
        { intros ->. simpl in Et. apply match_here_none in E. apply E.
          exists w, caps, rest. auto. }
        apply match_here_none in Hno. apply Hno. rewrite Et.
        apply (no_match_into_replacement u w caps rest (Re.sub p r rest) s Hu Hm).
        -- now rewrite <- Et.
        -- rewrite <- Eout, <- (sub_miss p r x t' E).
           destruct (scan s (x :: t')) as [s'|] eqn:Es; [|congruence].
           rewrite (sub_keeps_scan p r pr_ok _ _ _ Es). discriminate.
        -- now rewrite <- Eout.
    + simpl in Hs. destruct (delta s x) as [s1|]; [|congruence].
      apply (IH s1 Hs). destruct Hc as [->|Hc]; [now left|right].
      simpl in Hc. tauto.
  - intros t' caps rest E _ IH s Hs Hc.
    destruct (match_here_sound _ _ _ _ E) as (w & Hm & ->).
    destruct (match_in_tags p r w caps s rest pr_ok Hm Hs) as (E1 & _ & _).
    apply clean_app_intro.
    + intros R1 R2 ER Hne.
      exact (no_match_in_replacement w caps s rest _ R1 R2 Hm Hs ER Hne).
    + apply (IH Outside).
      * rewrite E1 in Hs. exact Hs.
      * destruct Hc as [->|Hc]; [now left|right]. exact (clean_app_r _ _ _ Hc).
Qed.

End Idempotence.

Section TableFacts.

Variable all : list rule.
Hypothesis all_ok : table_ok all = true.

Lemma table_ok_rule pr : In pr all -> rule_ok pr = true.
Proof.
  intros Hin. pose proof all_ok as H. unfold table_ok in H.
  apply andb_prop in H. destruct H as [H _].
  rewrite forallb_forall in H. now apply H.
Qed.

Lemma table_ok_pair qr pr : In qr all -> In pr all -> pair_ok (fst qr) pr = true.
Proof.
  intros Hq Hp. pose proof all_ok as H. unfold table_ok in H.
  apply andb_prop in H. destruct H as [_ H].
  rewrite forallb_forall in H. specialize (H pr Hp).
  rewrite forallb_forall in H. now apply H.
Qed.

Lemma table_sub_clean qr p r t s :
  In qr all -> In (p, r) all -> scan s t <> None ->
  fst qr = p \/ clean (fst qr) t -> clean (fst qr) (Re.sub p r t).
Proof.
  intros Hq Hp Hs Hc.
  pose proof (table_ok_rule qr Hq) as Hqok.
  assert (Hhead : head_lt (fst qr) = true).
  { destruct qr as [q0 r0]. exact (proj1 (rule_ok_heads q0 r0 Hqok)). }
  assert (Hscan : pat_scan Outside (fst qr) <> None).
  { unfold rule_ok in Hqok.
    apply andb_prop in Hqok. destruct Hqok as [Hqok _].
    apply andb_prop in Hqok. destruct Hqok as [_ Hqok].
    destruct (pat_scan Outside (fst qr)); congruence. }
  exact (sub_keeps_clean (fst qr) p r Hhead Hscan (table_ok_rule _ Hp)
           (table_ok_pair qr _ Hq Hp) t s Hs Hc).
Qed.

(** After the rules of [done] and then those of [rules], no pattern of
    either has a match left. *)
Lemma apply_rules_clean rules : forall done t s,
  (forall pr, In pr rules -> In pr all) ->
  (forall qr, In qr done -> In qr all) ->
  scan s t <> None ->
  Forall (fun qr : rule => clean (fst qr) t) done ->
  Forall (fun qr : rule => clean (fst qr) (apply_rules rules t)) (done ++ rules).
Proof.
  induction rules as [|[p r] rules IH]; intros done t s Hr Hd Hs Hc.
  - now rewrite app_nil_r.
  - rewrite apply_rules_cons.
    change (done ++ (p, r) :: rules) with (done ++ [(p, r)] ++ rules).
    rewrite app_assoc.
    assert (Hp : In (p, r) all) by (apply Hr; now left).
    apply (IH (done ++ [(p, r)]) (Re.sub p r t) s).
    + intros pr Hin. apply Hr. now right.
    + intros qr Hin. apply in_app_or in Hin. destruct Hin as [Hin|[<-|[]]]; auto.
    + destruct (scan s t) as [s'|] eqn:Es; [|congruence].
      rewrite (sub_keeps_scan p r (table_ok_rule _ Hp) _ _ _ Es). discriminate.
    + apply Forall_app. split.
      * rewrite Forall_forall in Hc |- *. intros qr Hin.
        apply (table_sub_clean qr p r t s); auto.
      * constructor; [|constructor].
        apply (table_sub_clean (p, r) p r t s); auto.
Qed.

End TableFacts.

Lemma apply_rules_id rules : forall t,
  heads_ok rules = true ->
  Forall (fun qr : rule => clean (fst qr) t) rules ->
  apply_rules rules t = t.
Proof.
  induction rules as [|[p r] rules IH]; intros t Hh Hc; [reflexivity|].
  simpl in Hh. apply andb_prop in Hh. destruct Hh as [Hp Hh].
  inversion Hc as [|? ? Hcp Hcr]; subst.
  rewrite apply_rules_cons, (clean_sub_id p r t Hp Hcp). now apply IH.
Qed.

(** * The claims *)

(** C1. For every document [D] stored in a readable file, the transformation
    of [clean_html_file] starts from [D] and applies each rule of
    [REPLACEMENTS] once, in table order, each rule replacing every
    non-overlapping match in the text the rule before it produced
    ([rewrite_spec]); the flag is true exactly when the final text differs
    from [D], and it is the value [clean_html_file] returns (when the file
    can be written, or nothing is written because of [--dry-run]). *)
Theorem C1_rewrite_applies_rules_in_order :
  forall (filepath : Path) (dry : bool) (w : world) (f : file) (D : text),
    fs w filepath = Some f ->
    read_result f = inr D ->
    dry = true \/ write_error f = None ->
    exists final changed,
      rewrite D = (final, changed)
      /\ rewrite_spec REPLACEMENTS D final
      /\ (changed = true <-> final <> D)
      /\ fst (clean_html_file filepath dry w) = Val changed.
Proof.
  intros filepath dry w f D Hf Hr Hw.
  exists (apply_rules REPLACEMENTS D), (negb (text_eqb (apply_rules REPLACEMENTS D) D)).
  split; [reflexivity|]. split; [apply apply_rules_spec, table_heads|]. split.
  - rewrite negb_true_iff, <- not_true_iff_false, text_eqb_eq. tauto.
  - rewrite clean_html_file_step. unfold clean_step. rewrite Hf, Hr.
    destruct (text_eqb (apply_rules REPLACEMENTS D) D); [reflexivity|].
    destruct Hw as [->| ->]; [reflexivity|]. destruct dry; reflexivity.
Qed.

Lemma C1_witness :
  exists final changed,
    rewrite (py "<table style='width:100%'>") = (final, changed)
    /\ rewrite_spec REPLACEMENTS (py "<table style='width:100%'>") final
    /\ (changed = true <-> final <> py "<table style='width:100%'>")
    /\ fst (clean_html_file Sample.b_html false Sample.site) = Val changed.
Proof.
  apply (C1_rewrite_applies_rules_in_order Sample.b_html false Sample.site
           (Sample.page "<table style='width:100%'>")).
  - reflexivity.
  - reflexivity.
  - right. reflexivity.
Defined.

(** C2, as stated, fails: a table tag nested in the [style] value of
    another. The first pass rewrites the inner tag only, which makes the
    outer tag a match; the second pass rewrites it. *)
Lemma C2_counterexample :
  fst (rewrite (py "<table style='<table style='x'>'>")) = py "<table style='<table>'>"
  /\ fst (rewrite (fst (rewrite (py "<table style='<table style='x'>'>")))) = py "<table>"
  /\ fst (rewrite (fst (rewrite (py "<table style='<table style='x'>'>"))))
     <> fst (rewrite (py "<table style='<table style='x'>'>")).
Proof. vm_compute. repeat split. discriminate. Qed.

(** C2, amended. Rewriting is idempotent on documents whose attribute values
    contain no [<]: when no [<] of [D] lies inside a double-quoted value of
    a tag (a tag runs from a [<] to the first [>] outside such a value), a
    second pass of the whole table over the rewritten text returns that
    text, with the flag false, and every rule of the table leaves it as it
    is. *)
Theorem C2_rewrite_idempotent_without_lt_in_values :
  forall D : text,
    lt_free_values D = true ->
    rewrite (fst (rewrite D)) = (fst (rewrite D), false)
    /\ Forall (fun pr : rule => Re.sub (fst pr) (snd pr) (fst (rewrite D)) = fst (rewrite D))
         REPLACEMENTS.
Proof.
  intros D Hwt. unfold rewrite. cbn [fst].
  assert (Hs : scan Outside D <> None).
  { unfold lt_free_values in Hwt. destruct (scan Outside D); congruence. }
  pose proof (apply_rules_clean REPLACEMENTS table_checked REPLACEMENTS [] D Outside
                (fun _ H => H) (fun _ H => match H with end) Hs (Forall_nil _)) as Hc.
  simpl app in Hc. split.
  - rewrite (apply_rules_id REPLACEMENTS _ table_heads Hc).
    now rewrite text_eqb_refl.
  - rewrite Forall_forall in Hc |- *. intros [p r] Hin. cbn [fst snd].
    apply clean_sub_id; [|exact (Hc _ Hin)].
    pose proof table_heads as Hh. unfold heads_ok in Hh.
    rewrite forallb_forall in Hh. exact (Hh _ Hin).
Qed.

Lemma C2_witness :
  lt_free_values (py "<div class='info-box' style='color:red'><table style='width:100%'>") = true
  /\ rewrite (fst (rewrite (py "<div class='info-box' style='color:red'><table style='width:100%'>")))
     = (fst (rewrite (py "<div class='info-box' style='color:red'><table style='width:100%'>")), false)
  /\ Forall (fun pr : rule =>
               Re.sub (fst pr) (snd pr)
                 (fst (rewrite (py "<div class='info-box' style='color:red'><table style='width:100%'>")))
               = fst (rewrite (py "<div class='info-box' style='color:red'><table style='width:100%'>")))
       REPLACEMENTS.
Proof.
  split; [reflexivity|].
  apply (C2_rewrite_idempotent_without_lt_in_values
           (py "<div class='info-box' style='color:red'><table style='width:100%'>")).
  reflexivity.
Defined.

(** C3. Dry-run purity: with [--dry-run], in either mode, the stored files
    after the run are the stored files before it, whatever was reported. *)
Theorem C3_dry_run_purity :
  forall (root : Path) (a : args) (w : world),
    dry_run a = true ->
    fs (snd (main root a w)) = fs w.
Proof. exact main_dry_fs. Qed.

Lemma C3_witness :
  fs (snd (main Sample.root (Sample.batch true) Sample.site)) = fs Sample.site.
Proof.
  apply (C3_dry_run_purity Sample.root (Sample.batch true) Sample.site).
  reflexivity.
Defined.

(** C4. When reading or decoding [filepath] fails with the message [e],
    [clean_html_file] prints the error with the path, returns [False]
    without raising, and the batch loop prints [No changes] for the file and
    goes on with the remaining files and an unchanged counter. *)
Theorem C4_read_failure_is_local :
  forall (root filepath : Path) (files : list Path) (dry : bool) (n : nat)
         (w : world) (e : text),
    (fs w filepath = None /\ e = no_such_file filepath)
    \/ (exists f, fs w filepath = Some f /\ read_result f = inl e) ->
    under root filepath ->
    let w' :=
      log (EvPrint (lit "Error processing " ++ path_str filepath ++ lit ": " ++ e))
        (log (EvRead filepath) w) in
    clean_html_file filepath dry w = (Val false, w')
    /\ process_all root dry (filepath :: files) n w =
       process_all root dry files n
         (log (EvPrint (lit "  No changes: " ++ path_str (rel_of root filepath))) w').
Proof.
  intros root filepath files dry n w e Hfail Hu w'.
  assert (Hc : clean_html_file filepath dry w = (Val false, w')).
  { rewrite clean_html_file_step. unfold clean_step, error_line.
    destruct Hfail as [[Hf ->]|(f & Hf & Hr)]; rewrite Hf; [reflexivity|].
    now rewrite Hr. }
  split; [exact Hc|].
  cbn [process_all]. unfold bind at 1. unfold rel_of. unfold under in Hu.
  destruct (relative_to filepath root) as [rel|]; [|congruence].
  unfold ret at 1. unfold bind at 1. rewrite Hc.
  unfold bind, print. reflexivity.
Qed.

Lemma C4_witness :
  clean_html_file Sample.c_html false Sample.site =
    (Val false,
     log (EvPrint (lit "Error processing " ++ path_str Sample.c_html ++ lit ": "
                   ++ lit "'utf-8' codec can't decode byte 0xff"))
       (log (EvRead Sample.c_html) Sample.site))
  /\ process_all Sample.root false [Sample.c_html; Sample.b_html] 0 Sample.site =
     process_all Sample.root false [Sample.b_html] 0
       (log (EvPrint (lit "  No changes: " ++ path_str (rel_of Sample.root Sample.c_html)))
          (log (EvPrint (lit "Error processing " ++ path_str Sample.c_html ++ lit ": "
                         ++ lit "'utf-8' codec can't decode byte 0xff"))
             (log (EvRead Sample.c_html) Sample.site))).
Proof.
  apply (C4_read_failure_is_local Sample.root Sample.c_html [Sample.b_html] false 0
           Sample.site (lit "'utf-8' codec can't decode byte 0xff")).
  - right. eexists. split; reflexivity.
  - discriminate.
Defined.

(** C5. In single-file mode, when the path does not exist, the program prints
    [File not found] with the name it was given and ends: its only events
    are the two header lines and that line, so no file was read or written,
    and the stored files are as before. *)
Theorem C5_single_missing_file :
  forall (root : Path) (a : args) (w : world) (name : text),
    single a = Some name -> name <> [] ->
    fs w (joinpath root name) = None ->
    fst (main root a w) = Val tt
    /\ fs (snd (main root a w)) = fs w
    /\ trace (snd (main root a w)) =
       trace w ++ [EvPrint (lit "Cleaning inline styles from blog posts...");
                   EvPrint rule_line;
                   EvPrint (lit "  File not found: " ++ name)].
Proof.
  intros root a w name Hs Hne Hf.
  assert (Hn : single_name a = Some name).
  { unfold single_name. rewrite Hs.
    destruct name as [|c s]; [exfalso; now apply Hne|reflexivity]. }
  rewrite (main_single_missing root a w name Hn Hf). cbn [fst snd fs trace log].
  repeat split. now rewrite <- !app_assoc.
Qed.

Lemma C5_witness :
  fst (main Sample.root (Sample.only false "posts/zz.html") Sample.site) = Val tt
  /\ fs (snd (main Sample.root (Sample.only false "posts/zz.html") Sample.site))
     = fs Sample.site
  /\ trace (snd (main Sample.root (Sample.only false "posts/zz.html") Sample.site)) =
     trace Sample.site
     ++ [EvPrint (lit "Cleaning inline styles from blog posts...");
         EvPrint rule_line;
         EvPrint (lit "  File not found: " ++ lit "posts/zz.html")].
Proof.
  apply (C5_single_missing_file Sample.root (Sample.only false "posts/zz.html")
           Sample.site (lit "posts/zz.html")).
  - reflexivity.
  - discriminate.
  - reflexivity.
Defined.

(** C6. The single-file branch with [--dry-run] on a file that the rewrite
    leaves unchanged: the call returns [False], and the status line says
    [Would update], where the batch branch says [No changes]. *)
Theorem C6_single_dry_run_says_would_update :
  rewrite (py "<p>plain text</p>") = (py "<p>plain text</p>", false)
  /\ trace (snd (main Sample.root (Sample.only true "posts/a.html") Sample.site)) =
     [EvPrint (lit "Cleaning inline styles from blog posts...");
      EvPrint rule_line;
      EvRead Sample.a_html;
      EvPrint (lit "  Would update: posts/a.html")]
  /\ trace (snd (main Sample.root (Sample.batch true)
                   {| fs := fs Sample.site;
                      rglob_html := fun _ => [Sample.a_html];
                      trace := [] |})) =
     [EvPrint (lit "Cleaning inline styles from blog posts...");
      EvPrint rule_line;
      EvRead Sample.a_html;
      EvPrint (lit "  No changes: posts/a.html");
      EvPrint rule_line;
      EvPrint (lit "Would update 0/1 posts")].
Proof. vm_compute. auto. Qed.

(** The summary line without its last word. *)
Definition claimed_summary (dry : bool) (updated total : nat) : text :=
  (if dry then lit "Would update" else lit "Updated")
  ++ lit " " ++ str_nat updated ++ lit "/" ++ str_nat total.

(** C7, as stated, fails: on the sample site one of three files is updated,
    the last line printed is [Updated 1/3 posts], and no printed line is
    [Updated 1/3]. *)
Lemma C7_counterexample :
  let tr := trace (snd (main Sample.root (Sample.batch false) Sample.site)) in
  last tr header = EvPrint (lit "Updated 1/3 posts")
  /\ ~ In (EvPrint (claimed_summary false 1 3)) tr.
Proof.
  vm_compute. split; [reflexivity|].
  intros H. repeat (destruct H as [H|H]; [discriminate H|]). exact H.
Qed.

(** C7, amended. In batch mode, over a listing without repetition whose
    files lie below [root], the run does not raise and its events are the
    two header lines, the events of each file in sorted order, the rule
    line, and one summary line
    [<Updated|Would update> <updated>/<total> posts], where [updated]
    counts the processed files for which [clean_html_file] returns [True],
    [total] is the number of listed files, and the word is [Would update]
    exactly with [--dry-run]. *)
Theorem C7_batch_summary_line :
  forall (root : Path) (a : args) (w : world),
    single_name a = None ->
    Forall (under root) (rglob_html w (posts_dir root)) ->
    NoDup (rglob_html w (posts_dir root)) ->
    let listing := rglob_html w (posts_dir root) in
    let updated := length (filter (reports_changed (dry_run a) w) (sorted listing)) in
    let total := length listing in
    fst (main root a w) = Val tt
    /\ trace (snd (main root a w)) =
       trace w
       ++ [EvPrint (lit "Cleaning inline styles from blog posts..."); EvPrint rule_line]
       ++ flat_map (file_events root (dry_run a) (fs w)) (sorted listing)
       ++ [EvPrint rule_line;
           EvPrint ((if dry_run a then lit "Would update" else lit "Updated")
                    ++ lit " " ++ str_nat updated ++ lit "/" ++ str_nat total
                    ++ lit " posts")].
Proof.
  intros root a w Hs Hu Hnd listing updated total.
  rewrite (main_batch root a w Hs Hu). fold listing. cbn [fst snd trace log].
  split; [reflexivity|].
  assert (Hnd' : NoDup (sorted listing)).
  { eapply Permutation_NoDup; [apply sorted_perm|exact Hnd]. }
  rewrite batch_world_trace, batch_count_filter by assumption.
  cbn [fs trace log]. unfold summary_text, header.
  assert (Hcount : filter (fun f => clean_result f (dry_run a) (fs w)) (sorted listing)
                 = filter (reports_changed (dry_run a) w) (sorted listing)).
  { apply filter_ext. intros f. now rewrite reports_changed_result. }
  rewrite Hcount. fold updated. fold total.
  rewrite <- !app_assoc. reflexivity.
Qed.

Lemma C7_witness :
  fst (main Sample.root (Sample.batch false) Sample.site) = Val tt
  /\ trace (snd (main Sample.root (Sample.batch false) Sample.site)) =
     trace Sample.site
     ++ [EvPrint (lit "Cleaning inline styles from blog posts..."); EvPrint rule_line]
     ++ flat_map (file_events Sample.root false (fs Sample.site))
          (sorted (rglob_html Sample.site (posts_dir Sample.root)))
     ++ [EvPrint rule_line;
         EvPrint (lit "Updated" ++ lit " "
                  ++ str_nat (length (filter (reports_changed false Sample.site)
                                        (sorted (rglob_html Sample.site (posts_dir Sample.root)))))
                  ++ lit "/"
                  ++ str_nat (length (rglob_html Sample.site (posts_dir Sample.root)))
                  ++ lit " posts")].
Proof.
  apply (C7_batch_summary_line Sample.root (Sample.batch false) Sample.site).
  - reflexivity.
  - repeat constructor; discriminate.
  - repeat constructor; simpl; intuition discriminate.
Defined.

(** C8. Deterministic traversal: in batch mode the files are read in the
    order of [sorted], which is ascending in the lexicographic order of
    paths and is a rearrangement of the listing; so two runs that start
    from the same stored files and differ only in the order in which the
    directory is enumerated print the same lines in the same order. *)
Theorem C8_deterministic_traversal :
  forall (root : Path) (a : args) (w1 w2 : world),
    single_name a = None ->
    fs w1 = fs w2 ->
    trace w1 = trace w2 ->
    Forall (under root) (rglob_html w1 (posts_dir root)) ->
    Permutation (rglob_html w1 (posts_dir root)) (rglob_html w2 (posts_dir root)) ->
    let files := sorted (rglob_html w1 (posts_dir root)) in
    Sorted (fun x y => path_le x y = true) files
    /\ Permutation (rglob_html w1 (posts_dir root)) files
    /\ reads (trace (snd (main root a w1))) = reads (trace w1) ++ files
    /\ trace (snd (main root a w1)) = trace (snd (main root a w2)).
Proof.
  intros root a w1 w2 Hs Hfs Htr Hu Hperm files.
  assert (Hu2 : Forall (under root) (rglob_html w2 (posts_dir root))).
  { eapply Permutation_Forall; eassumption. }
  split; [apply sorted_is_sorted|]. split; [apply sorted_perm|].
  rewrite (main_batch root a w1 Hs Hu), (main_batch root a w2 Hs Hu2).
  cbn [snd trace log]. fold files.
  rewrite <- (sorted_perm_eq _ _ Hperm). fold files.
  rewrite <- (Permutation_length Hperm).
  split.
  - rewrite !reads_app, reads_batch_world. cbn [trace log].
    rewrite !reads_app. simpl. now rewrite !app_nil_r.
  - destruct (batch_world_agree root (dry_run a) files
                (log (EvPrint rule_line) (log header w1))
                (log (EvPrint rule_line) (log header w2)))
      as (_ & H2 & H3).
    + cbn [fs log]. exact Hfs.
    + cbn [trace log]. now rewrite Htr.
    + now rewrite H2, H3.
Qed.

Lemma C8_witness :
  Sorted (fun x y => path_le x y = true)
    (sorted (rglob_html Sample.site (posts_dir Sample.root)))
  /\ Permutation (rglob_html Sample.site (posts_dir Sample.root))
       (sorted (rglob_html Sample.site (posts_dir Sample.root)))
  /\ reads (trace (snd (main Sample.root (Sample.batch true) Sample.site))) =
     reads (trace Sample.site) ++ sorted (rglob_html Sample.site (posts_dir Sample.root))
  /\ trace (snd (main Sample.root (Sample.batch true) Sample.site)) =
     trace (snd (main Sample.root (Sample.batch true) Sample.site')).
Proof.
  apply (C8_deterministic_traversal Sample.root (Sample.batch true)
           Sample.site Sample.site').
  - reflexivity.
  - reflexivity.
  - reflexivity.
  - repeat constructor; discriminate.
  - simpl.
    apply (perm_trans (l' := [posts_dir Sample.root ++ [lit "b.html"];
                              posts_dir Sample.root ++ [lit "c.html"];
                              posts_dir Sample.root ++ [lit "a.html"]])).
    + apply perm_swap.
    + apply perm_skip. apply perm_swap.
Defined.

(** C9. The third example of the specification: the call-to-action link
    loses its [style] attribute, the flag is true, and the 17th rule matches
    the whole opening tag with [/x] as its one captured group, which its
    template puts back as the [href] value. *)
Theorem C9_cta_button_example :
  rewrite (py "<a href='/x' class='cta-button' style='color:red;'>Go</a>")
  = (py "<a href='/x' class='cta-button'>Go</a>", true)
  /\ exists p r,
       nth_error REPLACEMENTS 16 = Some (p, r)
       /\ match_here p (py "<a href='/x' class='cta-button' style='color:red;'>Go</a>")
          = Some ([lit "/x"], lit "Go</a>")
       /\ expand r [lit "/x"] = py "<a href='/x' class='cta-button'>".
Proof.
  split; [vm_compute; reflexivity|].
  eexists. eexists. split; [reflexivity|]. split; vm_compute; reflexivity.
Qed.

(** C10. The rewritten text is never longer than the document, and it is
    strictly shorter when the flag is true; every rule of the table replaces
    each text its pattern matches by a strictly shorter string. *)
Theorem C10_rewrite_never_longer :
  forall D : text,
    length (fst (rewrite D)) <= length D
    /\ (snd (rewrite D) = true -> length (fst (rewrite D)) < length D)
    /\ (forall p r w caps,
          In (p, r) REPLACEMENTS -> matches p w caps ->
          length (expand r caps) < length w).
Proof.
  intros D. unfold rewrite. cbn [fst snd].
  pose proof (apply_rules_shrinks REPLACEMENTS D table_heads table_shrinks) as H.
  split; [destruct H as [->|H]; lia|]. split.
  - intros Hc. destruct H as [H|H]; [|exact H].
    rewrite H, text_eqb_refl in Hc. discriminate.
  - intros p r w caps Hin Hm. apply (shrinks_match p r w caps); auto.
    pose proof table_shrinks as Hall. rewrite forallb_forall in Hall.
    now apply Hall.
Qed.

(** * Further properties of the rewrite *)

(** ** A text is left alone exactly when no rule matches in it *)

Section FixedPoints.

Lemma clean_suffixes q t :
  clean q t <-> (forall a b, t = a ++ b -> ~ matches_at q b).
Proof.
  induction t as [|x t IH]; simpl.
  - split.
    + intros [E _] a b Eab. destruct a, b; try discriminate.
      now apply match_here_none.
    + intros H. split; [|exact I]. apply match_here_none. now apply (H [] []).
  - rewrite IH. split.
    + intros [E H] a b Eab. destruct a as [|y a].
      * simpl in Eab. subst b. now apply match_here_none.
      * injection Eab as _ Eab. now apply (H a b).
    + intros H. split.
      * apply match_here_none. now apply (H [] (x :: t)).
      * intros a b Eab. apply (H (x :: a) b). simpl. now rewrite Eab.
Qed.

Lemma match_here_nil q : head_lt q = true -> match_here q [] = None.
Proof.
  intros Hh. destruct (match_here q []) as [[caps rest]|] eqn:E; [|reflexivity].
  apply (match_here_shorter _ _ _ _ Hh) in E. simpl in E. lia.
Qed.

(** A pass of a shrinking rule that returns its input found no match. *)
Lemma sub_fixed_clean p r :
  head_lt p = true -> shrinks (p, r) = true ->
  forall t, Re.sub p r t = t -> clean p t.
Proof.
  intros Hh Hs. induction t as [|x t IH]; intros E.
  - simpl. split; [now apply match_here_nil|exact I].
  - destruct (match_here p (x :: t)) as [[caps rest]|] eqn:Em.
    + exfalso. rewrite (sub_hit p r Hh _ _ _ Em) in E.
      destruct (match_here_sound _ _ _ _ Em) as (w & Hm & Ew).
      pose proof (shrinks_match p r w caps Hs Hm) as Hlt.
      apply (f_equal (@length ascii)) in E. rewrite Ew in E.
      rewrite !length_app in E.
      destruct (sub_shrinks p r rest Hh Hs) as [Er|Hr]; [rewrite Er in E|]; lia.
    + rewrite (sub_miss p r x t Em) in E. injection E as E.
      simpl. split; [exact Em|now apply IH].
Qed.

Lemma apply_rules_fixed_clean rules : forall t,
  heads_ok rules = true -> forallb shrinks rules = true ->
  apply_rules rules t = t ->
  Forall (fun pr : rule => clean (fst pr) t) rules.
Proof.
  induction rules as [|[p r] rules IH]; intros t Hh Hs E; [constructor|].
  simpl in Hh, Hs. apply andb_prop in Hh, Hs.
  destruct Hh as [Hp Hh], Hs as [Hpr Hs].
  rewrite apply_rules_cons in E.
  assert (Esub : Re.sub p r t = t).
  { destruct (sub_shrinks p r t Hp Hpr) as [Es|Hlt]; [exact Es|].
    exfalso. apply (f_equal (@length ascii)) in E.
    destruct (apply_rules_shrinks rules (Re.sub p r t) Hh Hs) as [Ea|Ha];
      [rewrite Ea in E|]; lia. }
  rewrite Esub in E. constructor.
  - now apply (sub_fixed_clean p r Hp Hpr).
  - now apply IH.
Qed.

End FixedPoints.

(** X1. The flag is false, and the text returned is the document itself,
    exactly when no pattern of the table matches at any position of the
    document. *)
Theorem X1_unchanged_iff_no_rule_matches :
  forall D : text,
    rewrite D = (D, false)
    <-> (forall p r a b, In (p, r) REPLACEMENTS -> D = a ++ b -> ~ matches_at p b).
Proof.
  intros D. unfold rewrite. split.
  - intros E p r a b Hin Eab.
    assert (Ed : apply_rules REPLACEMENTS D = D) by congruence.
    pose proof (apply_rules_fixed_clean REPLACEMENTS D table_heads table_shrinks Ed) as Hc.
    rewrite Forall_forall in Hc. specialize (Hc (p, r) Hin). cbn [fst] in Hc.
    rewrite clean_suffixes in Hc. now apply (Hc a b).
  - intros H.
    assert (Hc : Forall (fun pr : rule => clean (fst pr) D) REPLACEMENTS).
    { rewrite Forall_forall. intros [p r] Hin. cbn [fst].
      rewrite clean_suffixes. intros a b. now apply (H p r). }
    rewrite (apply_rules_id REPLACEMENTS D table_heads Hc).
    now rewrite text_eqb_refl.
Qed.

(** ** The words of the specification determine the result *)

(** Every wildcard of the pattern is followed by its stop character, so a
    match has one way to end. *)
Fixpoint stops (p : pattern) : bool :=
  match p with
  | [] => true
  | Lit _ :: p' => stops p'
  | NotStar e :: p' =>
      match p' with
      | Lit c :: _ => Ascii.eqb c e && stops p'
      | _ => false
      end
  | Group e :: p' =>
      match p' with
      | Lit c :: _ => Ascii.eqb c e && stops p'
      | _ => false
      end
  end.

Lemma table_stops : forallb (fun pr : rule => stops (fst pr)) REPLACEMENTS = true.
Proof. reflexivity. Qed.

Section OneMatch.

Lemma stop_unique e (v v' x x' : text) :
  ~ In e v -> ~ In e v' -> v ++ e :: x = v' ++ e :: x' -> v = v' /\ x = x'.
Proof.
  revert v'. induction v as [|c v IH]; intros v' Hv Hv' E.
  - destruct v' as [|c' v']; simpl in E.
    + injection E as E. auto.
    + injection E as E1 E2. exfalso. apply Hv'. left. congruence.
  - destruct v' as [|c' v']; simpl in E.
    + injection E as E1 E2. exfalso. apply Hv. left. congruence.
    + injection E as -> E. destruct (IH v') as [-> ->]; auto.
      * intros H. apply Hv. now right.
      * intros H. apply Hv'. now right.
Qed.

Lemma pieces_unique p : forall ws ws' rest rest',
  stops p = true -> pieces p ws -> pieces p ws' ->
  concat ws ++ rest = concat ws' ++ rest' ->
  ws = ws' /\ rest = rest'.
Proof.
  induction p as [|a p IH]; intros ws ws' rest rest' Hst Hp Hp' E;
    inversion Hp as [|a1 w1 p1 ws1 Hpiece Hrest]; subst;
    inversion Hp' as [|a2 w2 p2 ws2 Hpiece' Hrest']; subst.
  - auto.
  - assert (Hwild : forall e, ~ In e w1 -> ~ In e w2 ->
              match p with Lit c :: _ => Ascii.eqb c e && stops p | _ => false end = true ->
              w1 :: ws1 = w2 :: ws2 /\ rest = rest').
    { intros e Hn1 Hn2 Hnext.
      destruct p as [|[c| |] p]; try discriminate.
      apply andb_prop in Hnext. destruct Hnext as [Hc Hst'].
      apply Ascii.eqb_eq in Hc. subst c.
      inversion Hrest as [|a3 w3 p3 ws3 Hp3 Hr3]; subst.
      inversion Hrest' as [|a4 w4 p4 ws4 Hp4 Hr4]; subst.
      inversion Hp3; subst. inversion Hp4; subst.
      simpl in E. rewrite <- !app_assoc in E. simpl in E.
      destruct (stop_unique e w1 w2 _ _ Hn1 Hn2 E) as [-> E'].
      assert (E2 : concat ([e] :: ws3) ++ rest = concat ([e] :: ws4) ++ rest')
        by (simpl; now rewrite E').
      destruct (IH ([e] :: ws3) ([e] :: ws4) rest rest' Hst' Hrest Hrest' E2)
        as [Ews Er].
      injection Ews as Ews. subst. auto. }
    inversion Hpiece as [c|e w Hn|e w Hn]; subst;
      inversion Hpiece' as [c'|e' w' Hn'|e' w' Hn']; subst; simpl in Hst.
    + simpl in E. injection E as E.
      destruct (IH _ _ _ _ Hst Hrest Hrest' E) as [-> ->]. auto.
    + now apply (Hwild e).
    + now apply (Hwild e).
Qed.

(** What the scan of [re.sub] returns is the only text that replaces the
    matches from left to right. *)
Lemma replace_all_sub p r s out :
  head_lt p = true -> stops p = true ->
  replace_all p r s out -> out = Re.sub p r s.
Proof.
  intros Hh Hst H. induction H as [|x s out Hno _ IH|w caps rest out Hm Hne _ IH].
  - symmetry. now apply sub_nil.
  - apply match_here_none in Hno. rewrite (sub_miss p r x s Hno). now rewrite IH.
  - destruct (match_here p (w ++ rest)) as [[caps' rest']|] eqn:E.
    + rewrite (sub_hit p r Hh _ _ _ E).
      destruct (match_here_sound _ _ _ _ E) as (w' & (ws' & Hp' & -> & ->) & Ew).
      destruct Hm as (ws & Hp & -> & ->).
      destruct (pieces_unique p ws ws' rest rest' Hst Hp Hp' Ew) as [-> ->].
      now rewrite IH.
    + exfalso. apply match_here_none in E. apply E.
      exists w, caps, rest. auto.
Qed.

Lemma rewrite_spec_apply_rules rules : forall t out,
  heads_ok rules = true ->
  forallb (fun pr : rule => stops (fst pr)) rules = true ->
  rewrite_spec rules t out -> out = apply_rules rules t.
Proof.
  induction rules as [|[p r] rules IH]; intros t out Hh Hst H;
    inversion H as [|p' r' rules' t' t1 t2 H1 H2]; subst.
  - reflexivity.
  - simpl in Hh, Hst. apply andb_prop in Hh, Hst.
    destruct Hh as [Hp Hh], Hst as [Hsp Hst].
    rewrite apply_rules_cons.
    rewrite <- (replace_all_sub p r t t1 Hp Hsp H1). now apply IH.
Qed.

End OneMatch.

(** X2. Replacing, rule after rule in table order, every match from left to
    right has one possible result, and it is the text the code computes:
    whichever match is taken at a position, it is the same one. *)
Theorem X2_specified_result_is_unique :
  forall D final : text,
    rewrite_spec REPLACEMENTS D final -> final = fst (rewrite D).
Proof.
  intros D final H.
  exact (rewrite_spec_apply_rules REPLACEMENTS D final table_heads table_stops H).
Qed.

Lemma X2_witness :
  apply_rules REPLACEMENTS (py "<td style='width:50%'>a</td>")
  = fst (rewrite (py "<td style='width:50%'>a</td>")).
Proof.
  apply (X2_specified_result_is_unique (py "<td style='width:50%'>a</td>")).
  apply apply_rules_spec. reflexivity.
Defined.

(** ** The text between the tags *)

(** A character is shown when it lies outside every tag. *)
Definition shown (s : place) (c : ascii) : bool :=
  match s with
  | Outside => negb (Ascii.eqb c LT)
  | _ => false
  end.

(** The characters of a text that lie outside its tags, in order. *)
Fixpoint visible (s : place) (t : text) : text :=
  match t with
  | [] => []
  | c :: t' =>
      match delta s c with
      | Some s' => if shown s c then c :: visible s' t' else visible s' t'
      | None => []
      end
  end.

(** What a match or a replacement shows: characters, and captured groups
    (numbered from 0). *)
Inductive vitem : Type :=
  | VC (c : ascii)
  | VG (k : nat).

Definition vitem_eq_dec : forall a b : vitem, {a = b} + {a <> b}.
Proof. decide equality; [apply ascii_dec|apply Nat.eq_dec]. Defined.

Fixpoint shown_by (caps : list text) (items : list vitem) : text :=
  match items with
  | [] => []
  | VC c :: items' => c :: shown_by caps items'
  | VG k :: items' => nth k caps [] ++ shown_by caps items'
  end.

Definition shift (it : vitem) : vitem :=
  match it with
  | VC c => VC c
  | VG k => VG (S k)
  end.

Definition show_lit (s : place) (c : ascii) (items : list vitem) : list vitem :=
  if shown s c then VC c :: items else items.

(** What a match of the pattern shows, when the match starts at place [s]. *)
Fixpoint pat_shown (s : place) (p : pattern) : option (list vitem) :=
  match p with
  | [] => Some []
  | Lit c :: p' =>
      match delta s c with
      | Some s' => option_map (show_lit s c) (pat_shown s' p')
      | None => None
      end
  | NotStar e :: p' =>
      match s with
      | InValue => if Ascii.eqb e QUOTE then pat_shown s p' else None
      | _ => None
      end
  | Group e :: p' =>
      match s with
      | InValue =>
          if Ascii.eqb e QUOTE then option_map (map shift) (pat_shown s p') else None
      | Outside =>
          if Ascii.eqb e LT
          then option_map (fun items => VG 0 :: map shift items) (pat_shown s p')
          else None
      | InTag => None
      end
  end.

(** What the expanded template shows; [gs] are the stop characters of the
    pattern's groups. *)
Fixpoint tpl_shown (gs : list ascii) (s : place) (r : template) : option (list vitem) :=
  match r with
  | [] => Some []
  | TLit c :: r' =>
      match delta s c with
      | Some s' => option_map (show_lit s c) (tpl_shown gs s' r')
      | None => None
      end
  | TRef k :: r' =>
      match s with
      | Outside => option_map (cons (VG (k - 1))) (tpl_shown gs s r')
      | InValue =>
          match nth_error gs (k - 1) with
          | Some e => if Ascii.eqb e QUOTE then tpl_shown gs s r' else None
          | None => None
          end
      | InTag => None
      end
  end.

(** The rule shows after a replacement what the match showed. *)
Definition shown_ok (pr : rule) : bool :=
  match pat_shown Outside (fst pr), tpl_shown (groups (fst pr)) Outside (snd pr) with
  | Some a, Some b => if list_eq_dec vitem_eq_dec a b then true else false
  | _, _ => false
  end.

Lemma table_shown : forallb shown_ok REPLACEMENTS = true.
Proof. vm_compute. reflexivity. Qed.

Section VisibleFacts.

Lemma visible_app a : forall s b,
  visible s (a ++ b) =
  match scan s a with
  | Some s' => visible s a ++ visible s' b
  | None => visible s a
  end.
Proof.
  induction a as [|c a IH]; intros s b; simpl; [reflexivity|].
  destruct (delta s c) as [s1|]; [|reflexivity].
  rewrite IH. destruct (scan s1 a); destruct (shown s c); reflexivity.
Qed.

Lemma visible_lt s t :
  scan s (LT :: t) <> None -> visible s (LT :: t) = visible Outside (LT :: t).
Proof. destruct s; simpl; auto; congruence. Qed.

(** A text without [<] outside the tags stays outside and is shown whole. *)
Lemma outside_piece w :
  ~ In LT w -> scan Outside w = Some Outside /\ visible Outside w = w.
Proof.
  induction w as [|c w IH]; intros Hn; [auto|].
  assert (Hc : c <> LT) by (intros ->; apply Hn; now left).
  destruct IH as [E1 E2]; [intros H; apply Hn; now right|].
  simpl. destruct (Ascii.eqb_spec c LT) as [->|_]; [congruence|].
  simpl. now rewrite E2.
Qed.

(** A text without quote and [<] inside a value stays there and shows
    nothing. *)
Lemma value_piece w :
  ~ In QUOTE w -> ~ In LT w ->
  scan InValue w = Some InValue /\ visible InValue w = [].
Proof.
  induction w as [|c w IH]; intros Hq Hl; [auto|].
  destruct IH as [E1 E2];
    [intros H; apply Hq; now right|intros H; apply Hl; now right|].
  simpl. destruct (Ascii.eqb_spec c LT) as [->|_]; [exfalso; apply Hl; now left|].
  destruct (Ascii.eqb_spec c QUOTE) as [->|_]; [exfalso; apply Hq; now left|].
  auto.
Qed.

Lemma shown_by_shift c caps items :
  shown_by (c :: caps) (map shift items) = shown_by caps items.
Proof.
  induction items as [|[x|k] items IH]; simpl; congruence.
Qed.

Lemma pat_shown_sound p : forall s items ws,
  pat_shown s p = Some items -> pieces p ws -> Forall2 lt_free_piece p ws ->
  scan s (concat ws) <> None ->
  visible s (concat ws) = shown_by (captures p ws) items.
Proof.
  induction p as [|a p IH]; intros s items ws Hps Hp Hl Hs;
    inversion Hp as [|a1 w1 p1 ws1 Hpiece Hrest]; subst;
    inversion Hl as [|a2 w2 p2 ws2 Hfree Hfrees]; subst.
  - simpl in Hps. injection Hps as <-. reflexivity.
  - simpl concat in *.
    inversion Hpiece as [c|e w Hn|e w Hn]; subst; simpl in Hps, Hfree.
    + simpl in Hs |- *. destruct (delta s c) as [s1|]; [|discriminate].
      destruct (pat_shown s1 p) as [items'|] eqn:E; [|discriminate].
      simpl in Hps. injection Hps as <-.
      rewrite (IH _ _ _ E Hrest Hfrees Hs). unfold show_lit.
      destruct (shown s c); reflexivity.
    + destruct s; try discriminate.
      destruct (Ascii.eqb e QUOTE) eqn:Ee; [|discriminate].
      apply Ascii.eqb_eq in Ee. subst e.
      destruct (value_piece w1 Hn Hfree) as [E1 E2].
      rewrite scan_app, E1 in Hs. rewrite visible_app, E1, E2. simpl.
      now apply IH.
    + destruct s; try discriminate.
      * destruct (Ascii.eqb e LT) eqn:Ee; [|discriminate].
        apply Ascii.eqb_eq in Ee. subst e.
        destruct (pat_shown Outside p) as [items'|] eqn:E; [|discriminate].
        simpl in Hps. injection Hps as <-.
        destruct (outside_piece w1 Hfree) as [E1 E2].
        rewrite scan_app, E1 in Hs. rewrite visible_app, E1, E2. simpl.
        rewrite shown_by_shift. f_equal. now apply IH.
      * destruct (Ascii.eqb e QUOTE) eqn:Ee; [|discriminate].
        apply Ascii.eqb_eq in Ee. subst e.
        destruct (pat_shown InValue p) as [items'|] eqn:E; [|discriminate].
        simpl in Hps. injection Hps as <-.
        destruct (value_piece w1 Hn Hfree) as [E1 E2].
        rewrite scan_app, E1 in Hs. rewrite visible_app, E1, E2. simpl.
        rewrite shown_by_shift. now apply IH.
Qed.

Lemma class_nth gs caps :
  Forall2 (fun e w => forall c, In c w -> excludes [e; LT] c = false) gs caps ->
  forall i,
    ~ In LT (nth i caps [])
    /\ (forall e, nth_error gs i = Some e -> ~ In e (nth i caps [])).
Proof.
  induction 1 as [|e w gs caps Hew H IH]; intros i.
  - destruct i; simpl; split; auto; intros e; discriminate.
  - destruct i as [|i]; simpl; [|apply IH].
    split.
    + intros Hin. specialize (Hew LT Hin). cbn [excludes existsb] in Hew.
      rewrite Ascii.eqb_refl, orb_true_l, orb_true_r in Hew. discriminate.
    + intros e' [= <-] Hin. specialize (Hew e Hin). cbn [excludes existsb] in Hew.
      rewrite Ascii.eqb_refl in Hew. discriminate.
Qed.

Lemma tpl_shown_sound gs caps r : forall s items,
  Forall2 (fun e w => forall c, In c w -> excludes [e; LT] c = false) gs caps ->
  tpl_shown gs s r = Some items ->
  visible s (expand r caps) = shown_by caps items.
Proof.
  intros s items Hc. revert s items.
  induction r as [|[c|k] r IH]; intros s items Hts; cbn [tpl_shown] in Hts.
  - injection Hts as <-. reflexivity.
  - cbn [expand visible]. destruct (delta s c) as [s1|]; [|discriminate].
    destruct (tpl_shown gs s1 r) as [items'|] eqn:E; [|discriminate].
    cbn [option_map] in Hts. injection Hts as <-. rewrite (IH _ _ E). unfold show_lit.
    destruct (shown s c); reflexivity.
  - cbn [expand]. destruct (class_nth gs caps Hc (k - 1)) as [Hlt Hstop].
    unfold text in *. destruct s; try discriminate.
    + destruct (tpl_shown gs Outside r) as [items'|] eqn:E; [|discriminate].
      cbn [option_map] in Hts. injection Hts as <-.
      destruct (outside_piece _ Hlt) as [E1 E2].
      rewrite visible_app, E1, E2. cbn [shown_by]. f_equal. now apply IH.
    + destruct (nth_error gs (k - 1)) as [e|] eqn:En; [|discriminate].
      destruct (Ascii.eqb e QUOTE) eqn:Ee; [|discriminate].
      apply Ascii.eqb_eq in Ee. subst e.
      destruct (value_piece _ (Hstop _ eq_refl) Hlt) as [E1 E2].
      rewrite visible_app, E1, E2. simpl. now apply IH.
Qed.

Lemma visible_from_tag s t :
  s <> InValue -> visible s (LT :: t) = visible Outside (LT :: t).
Proof. destruct s; simpl; auto; congruence. Qed.

(** The places around a match and around its replacement. *)
Lemma match_places p r ws s rest :
  rule_ok (p, r) = true -> pieces p ws -> scan s (concat ws ++ rest) <> None ->
  s <> InValue
  /\ (exists w', concat ws = LT :: w')
  /\ scan Outside (concat ws) = Some Outside
  /\ Forall2 lt_free_piece p ws
  /\ (exists R, expand r (captures p ws) = LT :: R)
  /\ scan Outside (expand r (captures p ws)) = Some Outside.
Proof.
  unfold rule_ok. cbn [fst snd]. intros Hok Hpc Hs.
  apply andb_prop in Hok. destruct Hok as [Hok Hy].
  apply andb_prop in Hok. destruct Hok as [Hok Hp].
  apply andb_prop in Hok. destruct Hok as [Hh Ht].
  assert (Hm : matches p (concat ws) (captures p ws)) by (exists ws; auto).
  destruct (matches_head_lt p _ _ Hh Hm) as (w' & Ew).
  assert (Hsv : s <> InValue).
  { intros ->. rewrite Ew in Hs. simpl in Hs. congruence. }
  rewrite Ew in Hs. change ((LT :: w') ++ rest) with (LT :: w' ++ rest) in Hs.
  pose proof (scan_lt s (w' ++ rest) Hs) as Hstart. rewrite Hstart in Hs.
  change (LT :: w' ++ rest) with ((LT :: w') ++ rest) in Hs.
  rewrite <- Ew, scan_app in Hs.
  destruct (pat_scan Outside p) as [[| |]|] eqn:Ep; try discriminate.
  assert (Hw : scan Outside (concat ws) <> None)
    by (destruct (scan Outside (concat ws)); congruence).
  destruct (pat_scan_sound p Outside Outside ws Ep Hpc Hw) as [E Hl].
  destruct (expand_inst p r ws Hpc Hl) as (us & Hu & Eu).
  destruct (sym_scan Outside (sym_of p r)) as [[| |]|] eqn:Ey; try discriminate.
  pose proof (sym_scan_sound _ _ _ _ Ey Hu) as Hr. rewrite <- Eu in Hr.
  repeat split; eauto using expand_head.
Qed.

(** A pass of a rule that shows what it matched changes nothing that is
    shown. *)
Lemma sub_keeps_visible p r :
  rule_ok (p, r) = true -> shown_ok (p, r) = true ->
  forall t s, scan s t <> None -> visible s (Re.sub p r t) = visible s t.
Proof.
  intros Hok Hsh.
  destruct (rule_ok_heads p r Hok) as [Hh Ht].
  unfold shown_ok in Hsh. cbn [fst snd] in Hsh.
  destruct (pat_shown Outside p) as [ip|] eqn:Eip; [|discriminate].
  destruct (tpl_shown (groups p) Outside r) as [ir|] eqn:Eir; [|discriminate].
  destruct (list_eq_dec vitem_eq_dec ip ir) as [<-|]; [|discriminate].
  intros t. apply (sub_scan_ind p r Hh
    (fun t out => forall s, scan s t <> None -> visible s out = visible s t)).
  - reflexivity.
  - intros x t' _ IH s Hs. simpl in Hs |- *.
    destruct (delta s x) as [s1|]; [|reflexivity].
    rewrite (IH s1 Hs). reflexivity.
  - intros t' caps rest E _ IH s Hs.
    destruct (match_here_sound _ _ _ _ E) as (w & (ws & Hpc & -> & ->) & ->).
    destruct (match_places p r ws s rest Hok Hpc Hs)
      as (Hsv & (w' & Ew) & Esw & Hl & (R & ER) & Esr).
    assert (Hrest : scan Outside rest <> None).
    { rewrite Ew in Hs. change ((LT :: w') ++ rest) with (LT :: w' ++ rest) in Hs.
      rewrite (scan_lt s (w' ++ rest) Hs) in Hs.
      change (LT :: w' ++ rest) with ((LT :: w') ++ rest) in Hs.
      now rewrite <- Ew, scan_app, Esw in Hs. }
    assert (El : visible s (concat ws ++ rest)
               = visible Outside (concat ws) ++ visible Outside rest).
    { transitivity (visible Outside (concat ws ++ rest)).
      - rewrite Ew. exact (visible_from_tag s (w' ++ rest) Hsv).
      - now rewrite visible_app, Esw. }
    assert (Er : visible s (expand r (captures p ws) ++ Re.sub p r rest)
               = visible Outside (expand r (captures p ws))
                 ++ visible Outside (Re.sub p r rest)).
    { transitivity (visible Outside (expand r (captures p ws) ++ Re.sub p r rest)).
      - rewrite ER. exact (visible_from_tag s (R ++ Re.sub p r rest) Hsv).
      - now rewrite visible_app, Esr. }
    rewrite El, Er, (IH Outside Hrest). f_equal.
    rewrite (tpl_shown_sound (groups p) (captures p ws) r Outside ip
               (captures_classes p ws Hpc Hl) Eir).
    symmetry. apply (pat_shown_sound p Outside ip ws Eip Hpc Hl). congruence.
Qed.

Lemma apply_rules_keeps rules : forall t s,
  forallb rule_ok rules = true -> forallb shown_ok rules = true ->
  scan Outside t = Some s ->
  scan Outside (apply_rules rules t) = Some s
  /\ visible Outside (apply_rules rules t) = visible Outside t.
Proof.
  induction rules as [|[p r] rules IH]; intros t s Hok Hsh Hs; [auto|].
  simpl in Hok, Hsh. apply andb_prop in Hok, Hsh.
  destruct Hok as [Hp Hok], Hsh as [Hps Hsh].
  rewrite apply_rules_cons.
  destruct (IH (Re.sub p r t) s Hok Hsh (sub_keeps_scan p r Hp _ _ _ Hs)) as [E1 E2].
  split; [exact E1|]. rewrite E2. apply sub_keeps_visible; auto. congruence.
Qed.

Lemma table_rules_ok : forallb rule_ok REPLACEMENTS = true.
Proof.
  pose proof table_checked as H. unfold table_ok in H.
  apply andb_prop in H. tauto.
Qed.

End VisibleFacts.

(** X3. When no attribute value of the document contains [<], the rewrite
    changes markup only: the characters outside the tags are the same, in
    the same order, before and after. *)
Theorem X3_text_between_tags_is_kept :
  forall D : text,
    lt_free_values D = true ->
    visible Outside (fst (rewrite D)) = visible Outside D.
Proof.
  intros D H. unfold lt_free_values in H. unfold rewrite. cbn [fst].
  destruct (scan Outside D) as [s|] eqn:Es; [|discriminate].
  exact (proj2 (apply_rules_keeps REPLACEMENTS D s table_rules_ok table_shown Es)).
Qed.

Lemma X3_witness :
  lt_free_values
    (py "<h3 style='font-size: 1.5rem; margin-bottom: 1.5rem;'>Related</h3><p>a > b</p>") = true
  /\ visible Outside
       (fst (rewrite
          (py "<h3 style='font-size: 1.5rem; margin-bottom: 1.5rem;'>Related</h3><p>a > b</p>")))
     = visible Outside
         (py "<h3 style='font-size: 1.5rem; margin-bottom: 1.5rem;'>Related</h3><p>a > b</p>").
Proof.
  split; [reflexivity|].
  apply (X3_text_between_tags_is_kept
           (py "<h3 style='font-size: 1.5rem; margin-bottom: 1.5rem;'>Related</h3><p>a > b</p>")).
  reflexivity.
Defined.

(** X4. The rewrite keeps the tags in place: a document without [<] inside
    an attribute value is rewritten into one, and the rewritten text ends
    where the document ended (outside a tag, inside a tag, or inside a
    value). *)
Theorem X4_rewrite_keeps_tags_closed :
  forall (D : text) (s : place),
    scan Outside D = Some s ->
    scan Outside (fst (rewrite D)) = Some s
    /\ lt_free_values (fst (rewrite D)) = true.
Proof.
  intros D s Es. unfold rewrite, lt_free_values. cbn [fst].
  rewrite (proj1 (apply_rules_keeps REPLACEMENTS D s table_rules_ok table_shown Es)).
  auto.
Qed.

Lemma X4_witness :
  scan Outside (fst (rewrite (py "<table style='width:100%'><tr style='x'"))) = Some InTag
  /\ lt_free_values (fst (rewrite (py "<table style='width:100%'><tr style='x'"))) = true.
Proof.
  apply (X4_rewrite_keeps_tags_closed (py "<table style='width:100%'><tr style='x'") InTag).
  reflexivity.
Defined.

(** * Further properties of [clean_html_file] and [main] *)

Section CallFacts.

Lemma process_all_frame root dry q files : forall n w,
  ~ In q files -> fs (snd (process_all root dry files n w)) q = fs w q.
Proof.
  induction files as [|f files IH]; intros n w Hq; [reflexivity|].
  assert (Hqf : q <> f) by (intros ->; apply Hq; now left).
  assert (Hq' : ~ In q files) by (intros H; apply Hq; now right).
  cbn [process_all]. unfold bind at 1.
  destruct (relative_to f root) as [rel|]; [|reflexivity].
  unfold ret at 1. unfold bind at 1. rewrite clean_html_file_step.
  pose proof (clean_step_frame f dry w q Hqf) as Hfr.
  destruct (fst (clean_step f dry w)); unfold bind, print;
    rewrite IH by assumption; cbn [fs log]; exact Hfr.
Qed.

Lemma batch_count_le root dry files : forall w,
  batch_count root dry files w <= length files.
Proof.
  induction files as [|f files IH]; intros w; simpl; [lia|].
  specialize (IH (file_step root dry f w)).
  destruct (fst (clean_step f dry w)); lia.
Qed.

(** A second pass over a rewritten document without [<] in its values
    finds nothing to do. *)
Lemma apply_rules_twice D :
  lt_free_values D = true ->
  apply_rules REPLACEMENTS (apply_rules REPLACEMENTS D) = apply_rules REPLACEMENTS D.
Proof.
  intros H. unfold lt_free_values in H.
  assert (Hs : scan Outside D <> None) by (destruct (scan Outside D); congruence).
  pose proof (apply_rules_clean REPLACEMENTS table_checked REPLACEMENTS [] D Outside
                (fun _ H => H) (fun _ H => match H with end) Hs (Forall_nil _)) as Hc.
  simpl app in Hc. exact (apply_rules_id REPLACEMENTS _ table_heads Hc).
Qed.

End CallFacts.

(** X5. A write that fails is caught like a read that fails: when the
    rewritten text differs but [write_text] raises [e], the call has read
    the file, tried the write, printed the error with the path, and returns
    [False]. *)
Theorem X5_write_failure_is_caught :
  forall (filepath : Path) (w : world) (f : file) (D e : text),
    fs w filepath = Some f ->
    read_result f = inr D ->
    fst (rewrite D) <> D ->
    write_error f = Some e ->
    clean_html_file filepath false w =
      (Val false,
       log (EvPrint (lit "Error processing " ++ path_str filepath ++ lit ": " ++ e))
         (log (EvWrite filepath (fst (rewrite D))) (log (EvRead filepath) w))).
Proof.
  intros filepath w f D e Hf Hr Hd He.
  rewrite clean_html_file_step. unfold clean_step, error_line, rewrite in *.
  cbn [fst] in Hd. rewrite Hf, Hr, He.
  destruct (text_eqb (apply_rules REPLACEMENTS D) D) eqn:Eq.
  - apply text_eqb_eq in Eq. contradiction.
  - cbn [fst snd fs log]. reflexivity.
Qed.

(** A site whose files cannot be written. *)
Definition locked_site : world :=
  {| fs := fun _ => Some {| read_result := inr (py "<table style='width:100%'>");
                            write_error := Some (lit "[Errno 13] Permission denied") |};
     rglob_html := fun _ => [];
     trace := [] |}.

Lemma X5_witness :
  clean_html_file Sample.b_html false locked_site =
    (Val false,
     log (EvPrint (lit "Error processing " ++ path_str Sample.b_html ++ lit ": "
                   ++ lit "[Errno 13] Permission denied"))
       (log (EvWrite Sample.b_html (fst (rewrite (py "<table style='width:100%'>"))))
          (log (EvRead Sample.b_html) locked_site))).
Proof.
  apply (X5_write_failure_is_caught Sample.b_html locked_site
           {| read_result := inr (py "<table style='width:100%'>");
              write_error := Some (lit "[Errno 13] Permission denied") |}
           (py "<table style='width:100%'>") (lit "[Errno 13] Permission denied")).
  - reflexivity.
  - reflexivity.
  - vm_compute. discriminate.
  - reflexivity.
Defined.


(** X7. A run changes no file that it does not process: in single-file
    mode every file but the named one, in batch mode every file that is not
    listed, is stored after the run as it was before. *)
Theorem X7_run_leaves_other_files :
  forall (root : Path) (a : args) (w : world) (q : Path),
    match single_name a with
    | Some name => q <> joinpath root name
    | None => ~ In q (rglob_html w (posts_dir root))
    end ->
    fs (snd (main root a w)) q = fs w q.
Proof.
  intros root a w q Hq. destruct (single_name a) as [name|] eqn:Hs.
  - destruct (fs w (joinpath root name)) as [f|] eqn:Hf.
    + rewrite (main_single_found root a w name f Hs Hf). cbn [snd fs log].
      now rewrite clean_step_frame.
    + now rewrite (main_single_missing root a w name Hs Hf).
  - assert (Hq' : ~ In q (sorted (rglob_html w (posts_dir root)))).
    { intros H. apply Hq. eapply Permutation_in; [|exact H].
      apply Permutation_sym, sorted_perm. }
    unfold main, single_name in *.
    unfold bind at 1. unfold print at 1. unfold bind at 1. unfold print at 1.
    assert (Hbatch :
      fs (snd ((html_files <- (fun w1 => (Val (rglob_html w1 (root ++ [lit "posts"])), w1)) ;;
                updated <- process_all root (dry_run a) (sorted html_files) 0 ;;
                print rule_line ;;;
                let action := if dry_run a then lit "Would update" else lit "Updated" in
                print (action ++ lit " " ++ str_nat updated ++ lit "/"
                       ++ str_nat (length html_files) ++ lit " posts"))
               (log (EvPrint rule_line)
                  (log (EvPrint (lit "Cleaning inline styles from blog posts...")) w)))) q
      = fs w q).
    { unfold bind at 1. unfold bind at 1. cbn [rglob_html log].
      pose proof (process_all_frame root (dry_run a) q
                    (sorted (rglob_html w (root ++ [lit "posts"]))) 0
                    (log (EvPrint rule_line)
                       (log (EvPrint (lit "Cleaning inline styles from blog posts...")) w))
                    Hq') as Hp.
      destruct (process_all root (dry_run a)
                  (sorted (rglob_html w (root ++ [lit "posts"]))) 0
                  (log (EvPrint rule_line)
                     (log (EvPrint (lit "Cleaning inline styles from blog posts...")) w)))
        as [[n|e] w1]; cbn [snd] in *; unfold bind, print; cbn [snd fs log]; exact Hp. }
    destruct (single a) as [[|c s]|]; try discriminate; exact Hbatch.
Qed.

Lemma X7_witness :
  fs (snd (main Sample.root (Sample.only false "posts/b.html") Sample.site)) Sample.a_html
  = fs Sample.site Sample.a_html.
Proof.
  apply (X7_run_leaves_other_files Sample.root (Sample.only false "posts/b.html")
           Sample.site Sample.a_html).
  simpl. discriminate.
Defined.

(** X8. Running the cleaner twice: after a live call on a writable file
    whose text has no [<] inside an attribute value, a second call reads the
    file, finds nothing to change, writes nothing and returns [False]. *)
Theorem X8_second_call_finds_nothing :
  forall (filepath : Path) (w : world) (f : file) (D : text),
    fs w filepath = Some f ->
    read_result f = inr D ->
    write_error f = None ->
    lt_free_values D = true ->
    clean_html_file filepath false (snd (clean_html_file filepath false w)) =
      (Val false, log (EvRead filepath) (snd (clean_html_file filepath false w))).
Proof.
  intros filepath w f D Hf Hr Hw Hd.
  rewrite (clean_html_file_step filepath false w).
  assert (Hafter : exists f' T,
            fs (snd (clean_step filepath false w)) filepath = Some f'
            /\ read_result f' = inr T
            /\ apply_rules REPLACEMENTS T = T).
  { unfold clean_step. rewrite Hf, Hr, Hw.
    destruct (text_eqb (apply_rules REPLACEMENTS D) D) eqn:Eq.
    - exists f, D. cbn [snd fs log]. apply text_eqb_eq in Eq. auto.
    - eexists. exists (apply_rules REPLACEMENTS D). cbn [snd store fs log].
      destruct (path_eq_dec filepath filepath) as [_|Hne]; [|congruence].
      repeat split. now apply apply_rules_twice. }
  destruct Hafter as (f' & T & Hf' & Hr' & HT).
  cbn [snd]. rewrite clean_html_file_step. unfold clean_step at 1 3.
  rewrite Hf', Hr', HT, text_eqb_refl. reflexivity.
Qed.

Lemma X8_witness :
  clean_html_file Sample.b_html false
    (snd (clean_html_file Sample.b_html false Sample.site)) =
  (Val false,
   log (EvRead Sample.b_html) (snd (clean_html_file Sample.b_html false Sample.site))).
Proof.
  apply (X8_second_call_finds_nothing Sample.b_html Sample.site
           (Sample.page "<table style='width:100%'>") (py "<table style='width:100%'>")).
  - reflexivity.
  - reflexivity.
  - reflexivity.
  - reflexivity.
Defined.

(** X9. In batch mode the summary never reports more updated files than
    files: the run ends with the line
    [<Updated|Would update> <updated>/<total> posts] with
    [updated <= total]. *)
Theorem X9_updated_at_most_total :
  forall (root : Path) (a : args) (w : world),
    single_name a = None ->
    Forall (under root) (rglob_html w (posts_dir root)) ->
    exists tr updated,
      updated <= length (rglob_html w (posts_dir root))
      /\ trace (snd (main root a w)) =
         tr ++ [EvPrint ((if dry_run a then lit "Would update" else lit "Updated")
                         ++ lit " " ++ str_nat updated ++ lit "/"
                         ++ str_nat (length (rglob_html w (posts_dir root)))
                         ++ lit " posts")].
Proof.
  intros root a w Hs Hu. rewrite (main_batch root a w Hs Hu). cbn [snd trace log].
  eexists. eexists. split; [|reflexivity].
  rewrite (Permutation_length (sorted_perm (rglob_html w (posts_dir root)))).
  apply batch_count_le.
Qed.

Lemma X9_witness :
  exists tr updated,
    updated <= length (rglob_html Sample.site (posts_dir Sample.root))
    /\ trace (snd (main Sample.root (Sample.batch false) Sample.site)) =
       tr ++ [EvPrint (lit "Updated" ++ lit " " ++ str_nat updated ++ lit "/"
                       ++ str_nat (length (rglob_html Sample.site (posts_dir Sample.root)))
                       ++ lit " posts")].
Proof.
  apply (X9_updated_at_most_total Sample.root (Sample.batch false) Sample.site).
  - reflexivity.
  - repeat constructor; discriminate.
Defined.

Lemma clean_result_dry_live q fs0 :
  (forall f, fs0 q = Some f -> write_error f = None) ->
  clean_result q true fs0 = clean_result q false fs0.
Proof.
  intros H. unfold clean_result, clean_step. cbn [fs].
  destruct (fs0 q) as [f|] eqn:Ef; [|reflexivity].
  destruct (read_result f) as [e|D]; [reflexivity|].
  destruct (text_eqb (apply_rules REPLACEMENTS D) D); [reflexivity|].
  now rewrite (H f eq_refl).
Qed.

(** X10. The preview is accurate when the files can be written: over a
    listing without repetition, a batch run with [--dry-run] announces in
    its summary the number of files that the run without [--dry-run], from
    the same stored files, reports as updated. *)
Theorem X10_preview_counts_what_a_live_run_updates :
  forall (root : Path) (w : world),
    Forall (under root) (rglob_html w (posts_dir root)) ->
    NoDup (rglob_html w (posts_dir root)) ->
    (forall q f, In q (rglob_html w (posts_dir root)) ->
       fs w q = Some f -> write_error f = None) ->
    exists tr tr' updated,
      trace (snd (main root {| dry_run := true; single := None |} w)) =
        tr ++ [EvPrint (lit "Would update" ++ lit " " ++ str_nat updated ++ lit "/"
                        ++ str_nat (length (rglob_html w (posts_dir root)))
                        ++ lit " posts")]
      /\ trace (snd (main root {| dry_run := false; single := None |} w)) =
         tr' ++ [EvPrint (lit "Updated" ++ lit " " ++ str_nat updated ++ lit "/"
                          ++ str_nat (length (rglob_html w (posts_dir root)))
                          ++ lit " posts")].
Proof.
  intros root w Hu Hnd Hw.
  rewrite (main_batch root {| dry_run := true; single := None |} w eq_refl Hu).
  rewrite (main_batch root {| dry_run := false; single := None |} w eq_refl Hu).
  cbn [snd trace log dry_run].
  assert (Hnd' : NoDup (sorted (rglob_html w (posts_dir root)))).
  { eapply Permutation_NoDup; [apply sorted_perm|exact Hnd]. }
  rewrite !batch_count_filter by assumption. cbn [fs log].
  assert (Hsame :
    filter (fun f => clean_result f true (fs w)) (sorted (rglob_html w (posts_dir root)))
    = filter (fun f => clean_result f false (fs w)) (sorted (rglob_html w (posts_dir root)))).
  { apply filter_ext_in. intros q Hq. apply clean_result_dry_live.
    intros f Hf. apply (Hw q f); auto.
    eapply Permutation_in; [apply Permutation_sym, sorted_perm|exact Hq]. }
  rewrite Hsame. unfold summary_text.
  eexists. eexists. eexists. split; reflexivity.
Qed.

Lemma X10_witness :
  exists tr tr' updated,
    trace (snd (main Sample.root {| dry_run := true; single := None |} Sample.site)) =
      tr ++ [EvPrint (lit "Would update" ++ lit " " ++ str_nat updated ++ lit "/"
                      ++ str_nat (length (rglob_html Sample.site (posts_dir Sample.root)))
                      ++ lit " posts")]
    /\ trace (snd (main Sample.root {| dry_run := false; single := None |} Sample.site)) =
       tr' ++ [EvPrint (lit "Updated" ++ lit " " ++ str_nat updated ++ lit "/"
                        ++ str_nat (length (rglob_html Sample.site (posts_dir Sample.root)))
                        ++ lit " posts")].
Proof.
  apply (X10_preview_counts_what_a_live_run_updates Sample.root Sample.site).
  - repeat constructor; discriminate.
  - repeat constructor; simpl; intuition discriminate.
  - intros q f Hq. simpl in Hq.
    destruct Hq as [<-|[<-|[<-|[]]]]; intros [= <-]; reflexivity.
Defined.

(** X11. Without [--dry-run] the single-file status of a writable file is
    accurate: the run ends either with [Updated] and a stored file that
    differs from the one before, or with [No changes] and the stored files
    as before. *)
Theorem X11_single_file_status_without_dry_run :
  forall (root : Path) (a : args) (w : world) (name : text) (f : file),
    single_name a = Some name ->
    dry_run a = false ->
    fs w (joinpath root name) = Some f ->
    write_error f = None ->
    (exists tr,
       trace (snd (main root a w)) =
         tr ++ [EvPrint (lit "  " ++ lit "Updated" ++ lit ": " ++ name)]
       /\ fs (snd (main root a w)) (joinpath root name) <> fs w (joinpath root name))
    \/ (exists tr,
          trace (snd (main root a w)) =
            tr ++ [EvPrint (lit "  " ++ lit "No changes" ++ lit ": " ++ name)]
          /\ fs (snd (main root a w)) = fs w).
Proof.
  intros root a w name f Hs Hd Hf Hw.
  rewrite (main_single_found root a w name f Hs Hf). rewrite Hd.
  cbn [snd trace fs log]. unfold clean_step. cbn [fs log]. rewrite Hf, Hw.
  destruct (read_result f) as [e|D] eqn:Er;
    [right; eexists; split; reflexivity|].
  destruct (text_eqb (apply_rules REPLACEMENTS D) D) eqn:Eq;
    [right; eexists; split; reflexivity|].
  left. eexists. split; [reflexivity|].
  cbn [snd store fs log].
  destruct (path_eq_dec (joinpath root name) (joinpath root name)) as [_|Hne];
    [|congruence].
  intros H. injection H as H. rewrite <- H in Er. cbn [read_result] in Er.
  injection Er as Er. rewrite Er, text_eqb_refl in Eq. discriminate.
Qed.

Lemma X11_witness :
  (exists tr,
     trace (snd (main Sample.root (Sample.only false "posts/b.html") Sample.site)) =
       tr ++ [EvPrint (lit "  " ++ lit "Updated" ++ lit ": " ++ lit "posts/b.html")]
     /\ fs (snd (main Sample.root (Sample.only false "posts/b.html") Sample.site))
          (joinpath Sample.root (lit "posts/b.html"))
        <> fs Sample.site (joinpath Sample.root (lit "posts/b.html")))
  \/ (exists tr,
        trace (snd (main Sample.root (Sample.only false "posts/b.html") Sample.site)) =
          tr ++ [EvPrint (lit "  " ++ lit "No changes" ++ lit ": " ++ lit "posts/b.html")]
        /\ fs (snd (main Sample.root (Sample.only false "posts/b.html") Sample.site))
           = fs Sample.site).
Proof.
  apply (X11_single_file_status_without_dry_run Sample.root
           (Sample.only false "posts/b.html") Sample.site (lit "posts/b.html")
           (Sample.page "<table style='width:100%'>")).
  - reflexivity.
  - reflexivity.
  - reflexivity.
  - reflexivity.
Defined.
